(** * Type-level exercises of the typescript-mastery repository

    The repository holds type declarations only: each one is a function of
    the type checker, from type arguments to a type.  The development embeds
    the types the exercise files speak about as an inductive universe [ty],
    every generic alias as its parameter list and a function of the type
    arguments, and the checker's part (defaults, constraints, indexed
    access, conditional types) as executable definitions.

    Source files:
    - easy/06.index-signatures.ts          (Character, MyAwaited)
    - easy/10.generic-type-arguments.ts    (GroceryItem, GroceryStore, CapreseSalad)
    - easy/13.generic-function-arguments.ts (identity, mapArray)
    - the default-parameter exercise       (ApiRequest, TSConfig)
    - the chart-configuration sketch       (width, Width, Margin)
    - the generics guide                   (Nullable, reverse, filter, Stack,
                                            the constrained GroceryStore and
                                            GroceryItem, SafeGroceryItem) *)

From stdpp Require Import base strings list gmap.
From Stdlib Require Import ZArith Lia.

Local Open Scope string_scope.

(** ** The universe of types *)

(** Type expressions of the exercises.  A numeric literal type keeps the
    literal as a decimal: [TLitNum 1499 2] is [14.99], [TLitNum 800 0] is
    [800].  [TRef n] is a reference to the interface declared under the
    name [n]; interfaces may mention themselves, so a type reached through
    references need not be a finite tree.  [TUnion] is the binary union
    [l | r]. *)
#[warnings="-register-all"]
Inductive ty : Type :=
| TString
| TNumber
| TBoolean
| TNull
| TUndefined
| TLitStr (s : string)
| TLitNum (digits : Z) (scale : nat)
| TLitBool (b : bool)
| TArray (elem : ty)
| TPromise (value : ty)
| TFun (param ret : ty)
| TObj (members : list (string * ty))
| TUnion (l r : ty)
| TRef (name : string).

(** The members of an object type, in declaration order. *)
Abbreviation members := (list (string * ty)).

(** The interface declarations in scope, by name. *)
Abbreviation decls := (gmap string (list (string * ty))).

(** [field k ms] is the type of the member named [k]. *)
Fixpoint field (k : string) (ms : members) : option ty :=
  match ms with
  | [] => None
  | (k', t) :: rest => if String.eqb k k' then Some t else field k rest
  end.

(** Whether a type is a union: a conditional type over a type parameter is
    applied to the constituents of a union, one by one. *)
Definition is_union (T : ty) : bool :=
  match T with TUnion _ _ => true | _ => false end.

Section Checker.

Variable env : decls.

(** The members a type exposes: those of an object literal type, or of the
    interface a reference names. *)
Definition members_of (T : ty) : option members :=
  match T with
  | TObj ms => Some ms
  | TRef n => env !! n
  | _ => None
  end.

(** ** MyAwaited (easy/06.index-signatures.ts) *)

(** [T extends Promise<infer U>]: the type argument of the wrapper. *)
Definition promise_arg (T : ty) : option ty :=
  match T with
  | TPromise U => Some U
  | _ => None
  end.

(** *** The second branch: [T extends { then: (onfulfilled: (arg: infer U)
      => any) => any }]

    The checker decides the branch by assignability, and infers [U] while
    it does: [T] must have a member [then] whose type is assignable to
    [(onfulfilled: (arg: U) => any) => any].  The functions below follow
    that test on the type of [then]. *)

(** The types that the function constituents of [P], the type of the
    parameter of [then], take as their argument, left to right: each is a
    candidate for [U].  A constituent that is no function ([null] in
    [((arg: string) => void) | null]) gives none. *)
Fixpoint callback_args (P : ty) : list ty :=
  match P with
  | TFun A _ => [A]
  | TUnion a b => callback_args a ++ callback_args b
  | _ => []
  end.

(** Whether [P] has a constituent that is an object type or an interface. *)
Fixpoint object_like (P : ty) : bool :=
  match P with
  | TObj _ | TRef _ => true
  | TUnion a b => object_like a || object_like b
  | _ => false
  end.

(** What the test says of the type of [then]. *)
Inductive then_shape : Type :=
| Accepts (args : list ty)
| Refuses
| Undecided.

(** A function type is assignable to the pattern when the pattern's
    callback [(arg: U) => any] is assignable to its parameter, that is, to
    one constituent of it: to a function constituent it always is, with the
    argument of that constituent among the candidates for [U]; to [null],
    [undefined], a primitive, an array or a Promise it never is.  Whether
    it is assignable to an object type depends on the members of the global
    interface [Function], which are not part of this development: with no
    function constituent and an object one the test is left [Undecided].  A
    union is assignable when every constituent is; a type that is no
    function is not. *)
Fixpoint then_match (F : ty) : then_shape :=
  match F with
  | TFun P _ =>
      match callback_args P with
      | [] => if object_like P then Undecided else Refuses
      | args => Accepts args
      end
  | TUnion a b =>
      match then_match a, then_match b with
      | Refuses, _ | _, Refuses => Refuses
      | Undecided, _ | _, Undecided => Undecided
      | Accepts la, Accepts lb => Accepts (la ++ lb)
      end
  | _ => Refuses
  end.

(** Several candidates in this position are inferred as their union. *)
Fixpoint union_of (A : ty) (rest : list ty) : ty :=
  match rest with
  | [] => A
  | B :: rest' => TUnion A (union_of B rest')
  end.

(** The type of the member [then], if there is one. *)
Definition then_member (T : ty) : option ty :=
  match members_of T with
  | Some ms => field "then" ms
  | None => None
  end.

(** The [U] the second branch infers, when [T] matches it. *)
Definition thenable_arg (T : ty) : option ty :=
  match then_member T with
  | Some F =>
      match then_match F with
      | Accepts (A :: rest) => Some (union_of A rest)
      | _ => None
      end
  | None => None
  end.

(** Whether the second branch is left undecided on [T]. *)
Definition undecided (T : ty) : bool :=
  match then_member T with
  | Some F =>
      match then_match F with
      | Undecided => true
      | _ => false
      end
  | None => false
  end.

(** One unwrapping step of the conditional type, on a type that is not a
    union: the first branch that matches gives the type to recurse on. *)
Definition unwrap (T : ty) : option ty :=
  match promise_arg T with
  | Some U => Some U
  | None => thenable_arg T
  end.

(** [type MyAwaited<T> = T extends Promise<infer U> ? MyAwaited<U>
      : T extends { then: ... (arg: infer U) ... } ? MyAwaited<U> : T].

    [T] is a bare type parameter, so the conditional distributes over a
    union.  Every recursive instantiation [MyAwaited<U>] uses one unit of
    [depth], the checker's bound on nested instantiations.  [None] is no
    answer: the bound is exhausted, or the second branch is undecided. *)
Fixpoint MyAwaited (depth : nat) : ty -> option ty :=
  fix distribute (T : ty) : option ty :=
    match T with
    | TUnion A B =>
        match distribute A, distribute B with
        | Some a, Some b => Some (TUnion a b)
        | _, _ => None
        end
    | _ =>
        match unwrap T with
        | Some U =>
            match depth with
            | S d => MyAwaited d U
            | O => None
            end
        | None => if undecided T then None else Some T
        end
    end.

(** [MyAwaited<T>] is [R]: the checker reaches [R] within some depth. *)
Definition awaited (T R : ty) : Prop :=
  exists depth, MyAwaited depth T = Some R.

(** *** The wrappers, as the claims speak of them *)

(** The argument types of the callbacks that a parameter type [P] admits:
    those of its function constituents. *)
Inductive callback_types : ty -> list ty -> Prop :=
| callback_types_fun A R : callback_types (TFun A R) [A]
| callback_types_union a b la lb :
    callback_types a la -> callback_types b lb ->
    callback_types (TUnion a b) (la ++ lb)
| callback_types_other P :
    is_union P = false -> (forall A R, P <> TFun A R) ->
    callback_types P [].

(** [P] has no constituent that is an object type or an interface. *)
Inductive no_object : ty -> Prop :=
| no_object_union a b : no_object a -> no_object b -> no_object (TUnion a b)
| no_object_other P :
    is_union P = false -> (forall ms, P <> TObj ms) ->
    (forall n, P <> TRef n) -> no_object P.

(** A type of [then] that takes a callback: a function whose parameter
    admits a callback, or a union of such functions; with the argument
    types of the callbacks. *)
Inductive takes_callback : ty -> list ty -> Prop :=
| takes_callback_fun P R args :
    callback_types P args -> args <> [] -> takes_callback (TFun P R) args
| takes_callback_union a b la lb :
    takes_callback a la -> takes_callback b lb ->
    takes_callback (TUnion a b) (la ++ lb).

(** A type of [then] that takes no callback: it is no function, or a
    function whose parameter is no callback and no object, or a union with
    such a constituent. *)
Inductive takes_no_callback : ty -> Prop :=
| takes_no_callback_other F :
    is_union F = false -> (forall P R, F <> TFun P R) -> takes_no_callback F
| takes_no_callback_fun P R :
    callback_types P [] -> no_object P -> takes_no_callback (TFun P R)
| takes_no_callback_left a b : takes_no_callback a -> takes_no_callback (TUnion a b)
| takes_no_callback_right a b : takes_no_callback b -> takes_no_callback (TUnion a b).

(** [T] is a thenable of [U]: it has a member [then] that takes a callback
    whose argument has type [U] (the union of the argument types, when the
    callback may be one of several functions). *)
Inductive thenable_of : ty -> ty -> Prop :=
| thenable_of_intro T ms F A rest :
    members_of T = Some ms -> field "then" ms = Some F ->
    takes_callback F (A :: rest) ->
    thenable_of T (union_of A rest).

(** [T] is plain: no union, no Promise and no thenable; it is no object
    and no interface, or it has no member [then], or one that takes no
    callback. *)
Inductive plain_type : ty -> Prop :=
| plain_no_members T :
    is_union T = false -> (forall U, T <> TPromise U) ->
    (forall n, T <> TRef n) -> members_of T = None -> plain_type T
| plain_no_then T ms :
    members_of T = Some ms -> field "then" ms = None -> plain_type T
| plain_other_then T ms F :
    members_of T = Some ms -> field "then" ms = Some F ->
    takes_no_callback F -> plain_type T.

(** [layers T d R]: [T] is [R] under at most [d] nested layers of Promise
    and thenable wrappers, [R] being plain (for a union, constituent by
    constituent): the nesting of wrappers in [T] is finite. *)
Inductive layers : ty -> nat -> ty -> Prop :=
| layers_plain T d : plain_type T -> layers T d T
| layers_promise U d R : layers U d R -> layers (TPromise U) (S d) R
| layers_thenable T U d R :
    thenable_of T U -> layers U d R -> layers T (S d) R
| layers_union A B d a b :
    layers A d a -> layers B d b -> layers (TUnion A B) d (TUnion a b).


(** ** Assignability, for constraints on type parameters *)

(** [P extends C] on a type parameter asks that the argument be assignable
    to [C].  The comparison is structural: a source union is assignable
    when every constituent is, a target union when some constituent
    accepts the source, a literal type to its base type, an object to an
    object type when it has every member the target asks for (more
    members are allowed), a function contravariantly in its parameter.
    [fuel] bounds the comparison, which interface references could
    otherwise prolong for ever. *)
Fixpoint assignable (fuel : nat) (Src Tgt : ty) {struct fuel} : bool :=
  match fuel with
  | O => false
  | S n =>
      let has_members (tms : members) :=
        match members_of Src with
        | Some sms =>
            forallb (fun kt : string * ty =>
                       match field kt.1 sms with
                       | Some s => assignable n s kt.2
                       | None => false
                       end) tms
        | None => false
        end in
      match Src with
      | TUnion A B => assignable n A Tgt && assignable n B Tgt
      | _ =>
          match Tgt with
          | TUnion X Y =>
              assignable n Src X || assignable n Src Y
              || match Src with
                 | TBoolean =>
                     assignable n (TLitBool true) Tgt
                     && assignable n (TLitBool false) Tgt
                 | _ => false
                 end
          | TString =>
              match Src with TString | TLitStr _ => true | _ => false end
          | TNumber =>
              match Src with TNumber | TLitNum _ _ => true | _ => false end
          | TBoolean =>
              match Src with TBoolean | TLitBool _ => true | _ => false end
          | TNull => match Src with TNull => true | _ => false end
          | TUndefined => match Src with TUndefined => true | _ => false end
          | TLitStr t =>
              match Src with TLitStr s => String.eqb s t | _ => false end
          | TLitNum d k =>
              match Src with
              | TLitNum d' k' =>
                  (d' * 10 ^ Z.of_nat k =? d * 10 ^ Z.of_nat k')%Z
              | _ => false
              end
          | TLitBool b =>
              match Src with TLitBool b' => Bool.eqb b' b | _ => false end
          | TArray t =>
              match Src with TArray s => assignable n s t | _ => false end
          | TPromise t =>
              match Src with TPromise s => assignable n s t | _ => false end
          | TFun p r =>
              match Src with
              | TFun p' r' => assignable n p p' && assignable n r' r
              | _ => false
              end
          | TObj tms => has_members tms
          | TRef name =>
              match env !! name with
              | Some tms => has_members tms
              | None => false
              end
          end
      end
  end.

(** The size of a type expression. *)
Fixpoint size (T : ty) : nat :=
  match T with
  | TArray t | TPromise t => S (size t)
  | TFun p r => S (size p + size r)
  | TUnion a b => S (size a + size b)
  | TObj ms =>
      S ((fix members_size (l : members) : nat :=
            match l with
            | [] => 0
            | kt :: rest => size kt.2 + members_size rest
            end) ms)
  | _ => 1
  end.

(** The sizes of the member types, added up. *)
Definition members_size (ms : members) : nat :=
  foldr (fun kt acc => size kt.2 + acc) 0 ms.

(** The size of a type with a reference opened once: the reference counts
    the members of the interface it names. *)
Definition weight (T : ty) : nat :=
  match T with
  | TRef n =>
      match env !! n with
      | Some ms => S (members_size ms)
      | None => 1
      end
  | _ => size T
  end.

(** The weight of a union is that of its constituents. *)
Fixpoint union_weight (T : ty) : nat :=
  match T with
  | TUnion a b => S (union_weight a + union_weight b)
  | _ => weight T
  end.

(** [Src extends Tgt], as the checker decides it: the comparison is bounded
    by the weights of the two types, which is enough whenever neither side
    is reached through a reference inside a reference. *)
Definition extends (Src Tgt : ty) : bool :=
  assignable (S (union_weight Src + union_weight Tgt)) Src Tgt.

(** ** Indexed access [T[k]] *)

Inductive check_error : Type :=
| ArityMismatch
| ConstraintViolation
| NoSuchProperty.

Inductive result (A : Type) : Type :=
| Ok (a : A)
| Err (e : check_error).
Arguments Ok {A} a.
Arguments Err {A} e.

(** [T[k]]: the type of member [k]; over a union, the union of the
    constituents' member types. *)
Fixpoint index_access (T : ty) (k : string) : result ty :=
  match T with
  | TUnion A B =>
      match index_access A k, index_access B k with
      | Ok a, Ok b => Ok (TUnion a b)
      | Err e, _ => Err e
      | _, Err e => Err e
      end
  | _ =>
      match members_of T with
      | Some ms =>
          match field k ms with
          | Some t => Ok t
          | None => Err NoSuchProperty
          end
      | None => Err NoSuchProperty
      end
  end.

(** ** Generic type aliases *)

(** A type parameter: [Name], [Name extends C], [Name = D] or
    [Name extends C = D]. *)
Record tparam : Type := {
  constraint : option ty;
  default : option ty
}.

(** A generic alias [type A<params> = body]: the body is a function of the
    type arguments, in the order of the parameters. *)
Record generic : Type := {
  tparams : list tparam;
  body : list ty -> result ty
}.

(** The [i]-th type argument. *)
Definition targ (i : nat) (args : list ty) : ty :=
  match args !! i with
  | Some t => t
  | None => TUndefined
  end.

(** Type arguments are matched to parameters by position; a missing
    trailing argument takes the parameter's default, and is an error
    where there is none; so is an argument too many. *)
Fixpoint fill (ps : list tparam) (args : list ty) : result (list ty) :=
  match ps, args with
  | [], [] => Ok []
  | [], _ :: _ => Err ArityMismatch
  | p :: ps', a :: args' =>
      match fill ps' args' with
      | Ok rest => Ok (a :: rest)
      | Err e => Err e
      end
  | p :: ps', [] =>
      match default p with
      | Some d =>
          match fill ps' [] with
          | Ok rest => Ok (d :: rest)
          | Err e => Err e
          end
      | None => Err ArityMismatch
      end
  end.

(** Every argument satisfies the constraint of its parameter. *)
Fixpoint satisfies (ps : list tparam) (args : list ty) : bool :=
  match ps, args with
  | p :: ps', a :: args' =>
      match constraint p with
      | Some c => extends a c
      | None => true
      end && satisfies ps' args'
  | _, _ => true
  end.

(** The instantiation [A<args>], as the checker resolves it. *)
Definition instantiate (g : generic) (args : list ty) : result ty :=
  match fill (tparams g) args with
  | Ok full =>
      if satisfies (tparams g) full then body g full
      else Err ConstraintViolation
  | Err e => Err e
  end.

(** A parameter with neither constraint nor default. *)
Definition plain : tparam := {| constraint := None; default := None |}.

(** *** easy/10.generic-type-arguments.ts *)

(** [type GroceryItem<Name, Price, InStock> =
      { name: Name, price: Price, inStock: InStock }] *)
Definition GroceryItem : generic :=
  {| tparams := [plain; plain; plain];
     body := fun args =>
       Ok (TObj [("name", targ 0 args);
                 ("price", targ 1 args);
                 ("inStock", targ 2 args)]) |}.

(** [type GroceryStore<Name, City> = { name: Name; city: City; }] *)
Definition GroceryStore : generic :=
  {| tparams := [plain; plain];
     body := fun args =>
       Ok (TObj [("name", targ 0 args); ("city", targ 1 args)]) |}.

(** [type CapreseSalad = GroceryItem<'Caprese Salad', 14.99, true>] *)
Definition CapreseSalad : result ty :=
  instantiate GroceryItem
    [TLitStr "Caprese Salad"; TLitNum 1499 2; TLitBool true].

(** *** The default-parameter exercise *)

(** [type ApiRequest<Data, Method = 'GET'> =
      { data: Data; method: Method }] *)
Definition ApiRequest : generic :=
  {| tparams := [plain;
                 {| constraint := None; default := Some (TLitStr "GET") |}];
     body := fun args =>
       Ok (TObj [("data", targ 0 args); ("method", targ 1 args)]) |}.

(** [{ strict: boolean }], the constraint of [TSConfig]. *)
Definition strict_boolean : ty := TObj [("strict", TBoolean)].

(** [type TSConfig<Param extends { strict: boolean } = { strict: true }> =
      { strict: Param['strict'] }] *)
Definition TSConfig : generic :=
  {| tparams := [{| constraint := Some strict_boolean;
                    default := Some (TObj [("strict", TLitBool true)]) |}];
     body := fun args =>
       match index_access (targ 0 args) "strict" with
       | Ok t => Ok (TObj [("strict", t)])
       | Err e => Err e
       end |}.

(** *** What the claims call "a boolean [strict] field" *)

(** A type of booleans: [boolean], [true], [false], or a union of such. *)
Inductive boolean_type : ty -> Prop :=
| boolean_type_base : boolean_type TBoolean
| boolean_type_lit b : boolean_type (TLitBool b)
| boolean_type_union a b :
    boolean_type a -> boolean_type b -> boolean_type (TUnion a b).

(** [P] has a boolean [strict] field: it has a member [strict] of a
    boolean type; a union has it when every constituent has. *)
Inductive has_boolean_strict : ty -> Prop :=
| has_strict_member P ms t :
    is_union P = false -> members_of P = Some ms ->
    field "strict" ms = Some t -> boolean_type t ->
    has_boolean_strict P
| has_strict_union A B :
    has_boolean_strict A -> has_boolean_strict B ->
    has_boolean_strict (TUnion A B).

End Checker.

Arguments Ok {A} a.
Arguments Err {A} e.

(** ** easy/13.generic-function-arguments.ts *)

Section GenericFunctions.

Context {T U : Type}.

(** [const identity = <T,>(param: T): T => { return param }] *)
Definition identity (param : T) : T := param.

(** A function value passed as the callback of an array method.  The
    method calls it with three arguments: the element, its index and the
    array.  A parameter that a call gives no argument for is [undefined],
    [None] here: that is so of the second and third in a call with the
    element alone. *)
Definition callback : Type := T -> option nat -> option (list T) -> U.

(** A function that declares one parameter, as a callback: arguments
    beyond the first are dropped. *)
Definition unary (f : T -> U) : callback := fun x _ _ => f x.

(** [fn(x)]: the call with the element alone. *)
Definition call1 (fn : callback) (x : T) : U := fn x None None.

(** The two arrays a call of [Array.prototype.map] works on: the receiver
    [receiver], which it reads, and the new array [mapped], which it
    fills. *)
Record map_state : Type := {
  receiver : list T;
  mapped : list U
}.

(** The loop of [Array.prototype.map]: for [k] from its start while
    [k < len], read element [k] of the receiver, call the callback with the
    element, [k] and the receiver, and store the value at index [k] of the
    new array. *)
Fixpoint map_loop (fn : callback) (k rounds : nat) (st : map_state) : map_state :=
  match rounds with
  | O => st
  | S rounds' =>
      match receiver st !! k with
      | Some x =>
          map_loop fn (S k) rounds'
            {| receiver := receiver st;
               mapped := mapped st ++ [fn x (Some k) (Some (receiver st))] |}
      | None => map_loop fn (S k) rounds' st
      end
  end.

(** [arr.map(fn)]: [len] is read once, the new array starts empty. *)
Definition Array_map (arr : list T) (fn : callback) : map_state :=
  map_loop fn 0 (length arr) {| receiver := arr; mapped := [] |}.

(** [const mapArray = <T, U>(arr: Array<T>, fn: (param: T) => U) =>
      arr.map(fn)]: [fn] is handed to [map] as it is, and the value
    returned is the new array.  A function with further, optional
    parameters is a [(param: T) => U] too. *)
Definition mapArray (arr : list T) (fn : callback) : list U :=
  mapped (Array_map arr fn).

(** The input array as the call leaves it. *)
Definition mapArray_input_after (arr : list T) (fn : callback) : list T :=
  receiver (Array_map arr fn).

End GenericFunctions.

Arguments callback T U : clear implicits.

(** ** The chart-configuration sketch *)

(** A literal initialiser. *)
Inductive literal : Type :=
| LStr (s : string)
| LNum (digits : Z) (scale : nat)
| LBool (b : bool).

(** How a variable is declared. *)
Inductive decl_kind : Type :=
| Const
| Let.

Record var_decl : Type := {
  kind : decl_kind;
  init : literal
}.

(** The singleton type of a literal. *)
Definition literal_type (v : literal) : ty :=
  match v with
  | LStr s => TLitStr s
  | LNum d k => TLitNum d k
  | LBool b => TLitBool b
  end.

(** The base type a literal widens to. *)
Definition widened_type (v : literal) : ty :=
  match v with
  | LStr _ => TString
  | LNum _ _ => TNumber
  | LBool _ => TBoolean
  end.

(** [typeof x]: a [const] keeps the literal type of its initialiser, a
    [let] is given the widened type. *)
Definition typeof (d : var_decl) : ty :=
  match kind d with
  | Const => literal_type (init d)
  | Let => widened_type (init d)
  end.

(** [const width = 800] *)
Definition width : var_decl := {| kind := Const; init := LNum 800 0 |}.

(** [type Width = typeof width] *)
Definition Width : ty := typeof width.

(** ** Types used as examples *)

(** [{ then: (onfulfilled: (arg: A) => R1) => R2 }] *)
Definition thenable (A R1 R2 : ty) : ty :=
  TObj [("then", TFun (TFun A R1) R2)].

(** [interface Loop { then: (onfulfilled: (arg: Loop) => null) => null }]:
    a thenable whose callback receives the thenable itself. *)
Definition loop_env : decls :=
  {[ "Loop" := [("then", TFun (TFun (TRef "Loop") TNull) TNull)] ]}.

(** [interface Config { strict: boolean; outDir: string }] *)
Definition config_env : decls :=
  {[ "Config" := [("strict", TBoolean); ("outDir", TString)] ]}.

(** [(x: number, i: number = 0) => x + i]: a function from number to number
    with a second, optional parameter. *)
Definition add_index : callback nat nat :=
  fun x i _ => x + match i with Some k => k | None => 0 end.



(** [{ then: (onfulfilled: ((arg: string) => null) | ((arg: number) => null))
      => null }]: the callback is one of two functions. *)
Definition either_callback_thenable : ty :=
  TObj [("then",
         TFun (TUnion (TFun TString TNull) (TFun TNumber TNull)) TNull)].

(** [{ then: string }]: a member [then] that is no function. *)
Definition then_is_string : ty := TObj [("then", TString)].

(** [Promise<Promise<... T ...>>], with [k] wrappers around [T]. *)
Fixpoint promises (k : nat) (T : ty) : ty :=
  match k with
  | O => T
  | S k' => TPromise (promises k' T)
  end.

(** [type Nullable<T> = T | null], of the generics guide. *)
Definition Nullable (T : ty) : ty := TUnion T TNull.

(** ** The record declarations of the exercise files *)

(** [interface Character { id: number, name: string, status: string,
      species: string }] (easy/06.index-signatures.ts) *)
Definition Character : members :=
  [("id", TNumber); ("name", TString); ("status", TString);
   ("species", TString)].

(** The interfaces easy/06.index-signatures.ts declares. *)
Definition exercise_env : decls := {[ "Character" := Character ]}.

(** [type Margin = { top: number; right: number; bottom: number;
      left: number }] (the chart-configuration sketch) *)
Definition Margin : ty :=
  TObj [("top", TNumber); ("right", TNumber); ("bottom", TNumber);
        ("left", TNumber)].

(** ** The challenge solution of the generics guide *)

Module Guide.

(** [type GroceryStore<Name extends string, City extends string> =
      { name: Name; city: City }] *)
Definition GroceryStore : generic :=
  {| tparams := [{| constraint := Some TString; default := None |};
                 {| constraint := Some TString; default := None |}];
     body := fun args =>
       Ok (TObj [("name", targ 0 args); ("city", targ 1 args)]) |}.

(** [type GroceryItem<Name extends string, Price extends number,
      InStock extends boolean> =
      { name: Name; price: Price; inStock: InStock }] *)
Definition GroceryItem : generic :=
  {| tparams := [{| constraint := Some TString; default := None |};
                 {| constraint := Some TNumber; default := None |};
                 {| constraint := Some TBoolean; default := None |}];
     body := fun args =>
       Ok (TObj [("name", targ 0 args);
                 ("price", targ 1 args);
                 ("inStock", targ 2 args)]) |}.

(** [interface ProductConstraints { name: string; price: number;
      inStock: boolean }] *)
Definition ProductConstraints : members :=
  [("name", TString); ("price", TNumber); ("inStock", TBoolean)].

(** The interfaces the guide's solution declares. *)
Definition env : decls := {[ "ProductConstraints" := ProductConstraints ]}.

(** [type SafeGroceryItem<T extends ProductConstraints> =
      { name: T['name']; price: T['price']; inStock: T['inStock'] }] *)
Definition SafeGroceryItem (env : decls) : generic :=
  {| tparams := [{| constraint := Some (TRef "ProductConstraints");
                    default := None |}];
     body := fun args =>
       match index_access env (targ 0 args) "name",
             index_access env (targ 0 args) "price",
             index_access env (targ 0 args) "inStock" with
       | Ok n, Ok p, Ok i =>
           Ok (TObj [("name", n); ("price", p); ("inStock", i)])
       | Err e, _, _ => Err e
       | _, Err e, _ => Err e
       | _, _, Err e => Err e
       end |}.

(** *** The functions and the class of the guide *)

Section Arrays.

Context {T : Type}.

(** The loop of [Array.prototype.reverse]: while [lower] is short of the
    middle, the elements at [lower] and at [upper = len - lower - 1] are
    exchanged in the array itself. *)
Fixpoint reverse_loop (rounds lower len : nat) (arr : list T) : list T :=
  match rounds with
  | O => arr
  | S rounds' =>
      let upper := len - lower - 1 in
      match arr !! lower, arr !! upper with
      | Some lowerValue, Some upperValue =>
          reverse_loop rounds' (S lower) len
            (<[upper := lowerValue]> (<[lower := upperValue]> arr))
      | _, _ => arr
      end
  end.

(** [arr.reverse()]: the middle is [floor(len / 2)]. *)
Definition Array_reverse (arr : list T) : list T :=
  reverse_loop (length arr / 2) 0 (length arr) arr.

(** What a call leaves: the value it returns and the argument array as it
    is afterwards. *)
Record outcome : Type := {
  returned : list T;
  items_after : list T
}.

(** [function reverse<T>(items: T[]): T[] { return items.reverse(); }]:
    the array is reversed in place and it is the array that is
    returned. *)
Definition reverse (items : list T) : outcome :=
  let arr := Array_reverse items in
  {| returned := arr; items_after := arr |}.

(** The two arrays a call of [Array.prototype.filter] works on. *)
Record filter_state : Type := {
  scanned : list T;
  kept : list T
}.

(** The loop of [Array.prototype.filter]: the predicate is called with
    element [k] of the receiver, [k] and the receiver, and the element is
    appended to the new array when the predicate holds. *)
Fixpoint filter_loop (predicate : callback T bool) (k rounds : nat)
    (st : filter_state) : filter_state :=
  match rounds with
  | O => st
  | S rounds' =>
      match scanned st !! k with
      | Some x =>
          filter_loop predicate (S k) rounds'
            (if predicate x (Some k) (Some (scanned st))
             then {| scanned := scanned st; kept := kept st ++ [x] |}
             else st)
      | None => filter_loop predicate (S k) rounds' st
      end
  end.

Definition Array_filter (arr : list T) (predicate : callback T bool) :
    filter_state :=
  filter_loop predicate 0 (length arr) {| scanned := arr; kept := [] |}.

(** [function filter<T>(arr: T[], predicate: (item: T) => boolean): T[]
      { return arr.filter(predicate); }] *)
Definition filter (arr : list T) (predicate : callback T bool) : list T :=
  kept (Array_filter arr predicate).

(** The input array as [filter] leaves it. *)
Definition filter_input_after (arr : list T) (predicate : callback T bool) :
    list T :=
  scanned (Array_filter arr predicate).

(** The elements of [l], a stretch of the array [arr] that starts at index
    [k], of which the predicate holds when called with the element, its
    index in [arr] and [arr]. *)
Fixpoint keep_from (predicate : callback T bool) (arr : list T) (k : nat)
    (l : list T) : list T :=
  match l with
  | [] => []
  | x :: rest =>
      if predicate x (Some k) (Some arr)
      then x :: keep_from predicate arr (S k) rest
      else keep_from predicate arr (S k) rest
  end.

End Arrays.

Arguments outcome T : clear implicits.
Arguments filter_state T : clear implicits.

Section StackClass.

(** The values of type [T | undefined], for the element type [T] of the
    stack: [undefined] is one of them, and it is an item of a stack only
    when [T] itself includes it. *)
Context {V : Type}.
Variable undefined : V.

(** [class Stack<T> { private items: T[] = []; ... }] *)
Record Stack : Type := { items : list V }.

(** [new Stack<T>()] *)
Definition new : Stack := {| items := [] |}.

(** [Array.prototype.push] with one argument: the element is stored at
    index [length]. *)
Definition Array_push (arr : list V) (item : V) : list V := arr ++ [item].

(** [Array.prototype.pop]: on an empty array the result is [undefined];
    otherwise it is the element at [length - 1], and the array is cut to
    that length. *)
Definition Array_pop (arr : list V) : V * list V :=
  match length arr with
  | O => (undefined, arr)
  | S newLen =>
      (match arr !! newLen with Some x => x | None => undefined end,
       take newLen arr)
  end.

(** [push(item: T) { this.items.push(item); }] *)
Definition push (item : V) (s : Stack) : Stack :=
  {| items := Array_push (items s) item |}.

(** [pop(): T | undefined { return this.items.pop(); }] *)
Definition pop (s : Stack) : V * Stack :=
  let r := Array_pop (items s) in
  (r.1, {| items := r.2 |}).

(** Pushing the elements of a list, first to last. *)
Definition push_all (xs : list V) (s : Stack) : Stack :=
  foldl (fun acc x => push x acc) s xs.

(** Popping [n] times: the values returned, first to last, and the stack
    left. *)
Fixpoint pop_n (n : nat) (s : Stack) : list V * Stack :=
  match n with
  | O => ([], s)
  | S n' =>
      let r := pop s in
      let rest := pop_n n' r.2 in
      (r.1 :: rest.1, rest.2)
  end.

End StackClass.

Arguments Stack V : clear implicits.

End Guide.

(** ** What it is to have members of given base types *)

(** The three base types of the declarations above. *)
Inductive base : Type :=
| BString
| BNumber
| BBoolean.

Definition base_ty (b : base) : ty :=
  match b with
  | BString => TString
  | BNumber => TNumber
  | BBoolean => TBoolean
  end.

(** A type of values of a base type: the base type, a literal of it, or a
    union of such. *)
Inductive of_base : base -> ty -> Prop :=
| of_base_self b : of_base b (base_ty b)
| of_base_string s : of_base BString (TLitStr s)
| of_base_number d k : of_base BNumber (TLitNum d k)
| of_base_boolean v : of_base BBoolean (TLitBool v)
| of_base_union b x y : of_base b x -> of_base b y -> of_base b (TUnion x y).

(** The members of a record whose fields have the given base types. *)
Definition record_of (fs : list (string * base)) : members :=
  map (fun kb : string * base => (kb.1, base_ty kb.2)) fs.

(** [P] has every field of [fs], each of a type of its base type; a union
    has them when every constituent has. *)
Inductive has_fields (env : decls) (fs : list (string * base)) : ty -> Prop :=
| has_fields_members P ms :
    is_union P = false -> members_of env P = Some ms ->
    Forall (fun kb : string * base =>
              exists s, field kb.1 ms = Some s /\ of_base kb.2 s) fs ->
    has_fields env fs P
| has_fields_union A B :
    has_fields env fs A -> has_fields env fs B ->
    has_fields env fs (TUnion A B).

(** The members a record target asks of the members [sms] of a source. *)
Definition asked (env : decls) (n : nat) (sms tms : members) : bool :=
  forallb (fun kt : string * ty =>
             match field kt.1 sms with
             | Some s => assignable env n s kt.2
             | None => false
             end) tms.

(** A target that stands for the record with fields [fs]: the record type
    itself, or a reference to an interface declaring it. *)
Definition record_target (env : decls) (fs : list (string * base)) (Tgt : ty) : Prop :=
  Tgt = TObj (record_of fs) \/
  exists name, Tgt = TRef name /\ env !! name = Some (record_of fs).

(** A character with literal fields and a member more. *)
Definition rick : ty :=
  TObj [("id", TLitNum 1 0); ("name", TLitStr "Rick");
        ("status", TUnion (TLitStr "Alive") (TLitStr "Dead"));
        ("species", TString); ("origin", TString)].

(** ** Facts about MyAwaited *)

Section MyAwaitedFacts.

Variable env : decls.

(** The defining equation of the conditional type, one instantiation
    unfolded. *)
Lemma MyAwaited_unfold (depth : nat) (T : ty) :
  MyAwaited env depth T =
  match T with
  | TUnion A B =>
      match MyAwaited env depth A, MyAwaited env depth B with
      | Some a, Some b => Some (TUnion a b)
      | _, _ => None
      end
  | _ =>
      match unwrap env T with
      | Some U =>
          match depth with
          | S d => MyAwaited env d U
          | O => None
          end
      | None => if undecided env T then None else Some T
      end
  end.
Proof. destruct depth; destruct T; reflexivity. Qed.

Lemma MyAwaited_union (depth : nat) (A B : ty) :
  MyAwaited env depth (TUnion A B) =
  match MyAwaited env depth A, MyAwaited env depth B with
  | Some a, Some b => Some (TUnion a b)
  | _, _ => None
  end.
Proof. exact (MyAwaited_unfold depth (TUnion A B)). Qed.

Lemma MyAwaited_step (d : nat) (T U : ty) :
  is_union T = false -> unwrap env T = Some U ->
  MyAwaited env (S d) T = MyAwaited env d U.
Proof.
  intros Hu Hw. rewrite MyAwaited_unfold.
  destruct T; try discriminate Hu; rewrite Hw; reflexivity.
Qed.

Lemma MyAwaited_stuck (T U : ty) :
  is_union T = false -> unwrap env T = Some U -> MyAwaited env 0 T = None.
Proof.
  intros Hu Hw. rewrite MyAwaited_unfold.
  destruct T; try discriminate Hu; rewrite Hw; reflexivity.
Qed.

Lemma MyAwaited_base (depth : nat) (T : ty) :
  is_union T = false -> unwrap env T = None -> undecided env T = false ->
  MyAwaited env depth T = Some T.
Proof.
  intros Hu Hw Hd. rewrite MyAwaited_unfold.
  destruct T; try discriminate Hu; rewrite Hw, Hd; reflexivity.
Qed.

(** The equation on a type that is not a union. *)
Lemma MyAwaited_leaf (depth : nat) (T : ty) :
  is_union T = false ->
  MyAwaited env depth T =
  match unwrap env T with
  | Some U =>
      match depth with
      | S d => MyAwaited env d U
      | O => None
      end
  | None => if undecided env T then None else Some T
  end.
Proof.
  intros Hu. rewrite MyAwaited_unfold.
  destruct T; try discriminate Hu; reflexivity.
Qed.

(** A larger depth bound never changes a result already reached. *)
Lemma MyAwaited_mono (d : nat) :
  forall (T R : ty) (d' : nat),
    MyAwaited env d T = Some R -> d <= d' -> MyAwaited env d' T = Some R.
Proof.
  induction d as [|d IHd]; induction T; intros R d' H Hle;
    first
      [ rewrite MyAwaited_union in H |- *;
        destruct (MyAwaited env _ T1) as [a|] eqn:E1; [|discriminate H];
        destruct (MyAwaited env _ T2) as [b|] eqn:E2; [|discriminate H];
        rewrite (IHT1 a d' eq_refl Hle), (IHT2 b d' eq_refl Hle); exact H
      | rewrite MyAwaited_leaf in H |- * by reflexivity;
        destruct (unwrap env _); [|exact H];
        first [ discriminate H
              | destruct d' as [|d'']; [lia | apply IHd; [exact H | lia]] ] ].
Qed.

(** The conditional type is a function: it has at most one result. *)
Lemma awaited_unique (T R R' : ty) :
  awaited env T R -> awaited env T R' -> R = R'.
Proof.
  intros [d H] [d' H'].
  pose proof (MyAwaited_mono _ _ _ (d `max` d') H ltac:(lia)) as E.
  pose proof (MyAwaited_mono _ _ _ (d `max` d') H' ltac:(lia)) as E'.
  congruence.
Qed.

(** *** The checker's test and the wrappers of the claims *)

Lemma callback_types_args (P : ty) (args : list ty) :
  callback_types P args -> callback_args P = args.
Proof.
  induction 1 as [A R | a b la lb _ IHa _ IHb | P Hu Hf].
  - reflexivity.
  - simpl. rewrite IHa, IHb. reflexivity.
  - destruct P; try reflexivity; [exfalso; eapply Hf; reflexivity | discriminate Hu].
Qed.

Lemma no_object_like (P : ty) : no_object P -> object_like P = false.
Proof.
  induction 1 as [a b _ IHa _ IHb | P Hu Ho Hr].
  - simpl. rewrite IHa, IHb. reflexivity.
  - destruct P; try reflexivity;
      [exfalso; eapply Ho; reflexivity | discriminate Hu
      | exfalso; eapply Hr; reflexivity].
Qed.

Lemma takes_callback_match (F : ty) (args : list ty) :
  takes_callback F args -> then_match F = Accepts args /\ args <> [].
Proof.
  induction 1 as [P R args Hc Hn | a b la lb _ [IHa Na] _ [IHb Nb]].
  - split; [|exact Hn]. simpl. rewrite (callback_types_args P args Hc).
    destruct args; [contradiction | reflexivity].
  - split.
    + simpl. rewrite IHa, IHb. reflexivity.
    + destruct la; [contradiction | discriminate].
Qed.

Lemma takes_no_callback_match (F : ty) :
  takes_no_callback F -> then_match F = Refuses.
Proof.
  induction 1 as [F Hu Hf | P R Hc Ho | a b _ IH | a b _ IH].
  - destruct F; try reflexivity;
      [exfalso; eapply Hf; reflexivity | discriminate Hu].
  - simpl. rewrite (callback_types_args P [] Hc), (no_object_like P Ho).
    reflexivity.
  - simpl. rewrite IH. reflexivity.
  - simpl. rewrite IH. destruct (then_match a); reflexivity.
Qed.

Lemma members_not_wrapper (T : ty) (ms : members) :
  members_of env T = Some ms -> is_union T = false /\ promise_arg T = None.
Proof. destruct T; try discriminate; split; reflexivity. Qed.

(** A thenable of [U] is what the second branch matches, inferring [U]. *)
Lemma thenable_of_unwrap (T U : ty) :
  thenable_of env T U -> is_union T = false /\ unwrap env T = Some U.
Proof.
  intros [T' ms F A rest Hm Hf Ht].
  destruct (members_not_wrapper T' ms Hm) as [Hu Hp].
  split; [exact Hu|].
  destruct (takes_callback_match F (A :: rest) Ht) as [Hs _].
  unfold unwrap, thenable_arg, then_member. rewrite Hp, Hm, Hf, Hs.
  reflexivity.
Qed.

(** A plain type is matched by neither branch, and decidedly so. *)
Lemma plain_type_unwrap (T : ty) :
  plain_type env T ->
  is_union T = false /\ unwrap env T = None /\ undecided env T = false.
Proof.
  intros [T' Hu Hp _ Hm | T' ms Hm Hf | T' ms F Hm Hf Ht].
  - split; [exact Hu|].
    unfold unwrap, thenable_arg, undecided, then_member. rewrite Hm.
    destruct T'; try (split; reflexivity).
    exfalso. eapply Hp. reflexivity.
  - destruct (members_not_wrapper T' ms Hm) as [Hu Hp].
    split; [exact Hu|].
    unfold unwrap, thenable_arg, undecided, then_member.
    rewrite Hp, Hm, Hf. split; reflexivity.
  - destruct (members_not_wrapper T' ms Hm) as [Hu Hp].
    split; [exact Hu|].
    unfold unwrap, thenable_arg, undecided, then_member.
    rewrite Hp, Hm, Hf, (takes_no_callback_match F Ht). split; reflexivity.
Qed.

Lemma plain_type_fixed (T : ty) (depth : nat) :
  plain_type env T -> MyAwaited env depth T = Some T.
Proof.
  intros H. destruct (plain_type_unwrap T H) as (Hu & Hw & Hd).
  apply MyAwaited_base; assumption.
Qed.


(** Under [d] layers at most, the checker reaches the type inside within
    depth [d]. *)
Lemma layers_MyAwaited (T : ty) (d : nat) (R : ty) :
  layers env T d R -> MyAwaited env d T = Some R.
Proof.
  induction 1 as [T d Hp | U d R _ IH | T U d R Ht _ IH
                 | A B d a b _ IHA _ IHB].
  - apply plain_type_fixed. exact Hp.
  - rewrite (MyAwaited_step d (TPromise U) U eq_refl eq_refl). exact IH.
  - destruct (thenable_of_unwrap T U Ht) as [Hu Hw].
    rewrite (MyAwaited_step d T U Hu Hw). exact IH.
  - rewrite MyAwaited_union, IHA, IHB. reflexivity.
Qed.




Lemma awaited_union (A B R : ty) :
  awaited env (TUnion A B) R <->
  exists a b, R = TUnion a b /\ awaited env A a /\ awaited env B b.
Proof.
  split.
  - intros [d H]. rewrite MyAwaited_union in H.
    destruct (MyAwaited env d A) as [a|] eqn:EA; [|discriminate H].
    destruct (MyAwaited env d B) as [b|] eqn:EB; [|discriminate H].
    injection H as <-. exists a, b.
    split; [reflexivity | split; eexists; eassumption].
  - intros (a & b & -> & [da Ha] & [db Hb]). exists (da `max` db).
    rewrite MyAwaited_union.
    rewrite (MyAwaited_mono _ _ _ (da `max` db) Ha ltac:(lia)).
    rewrite (MyAwaited_mono _ _ _ (da `max` db) Hb ltac:(lia)).
    reflexivity.
Qed.

End MyAwaitedFacts.

(** ** The claims about MyAwaited *)

Section MyAwaitedClaims.

Variable env : decls.


(** C2: the type a thenable resolves through is the parameter of the
    callback that [then] takes, whatever the callback and [then] return:
    when the callback receives a [string], MyAwaited is [string]. *)
Theorem MyAwaited_thenable_callback_argument
    (T : ty) (ms : members) (A R1 R2 : ty) :
  members_of env T = Some ms ->
  field "then" ms = Some (TFun (TFun A R1) R2) ->
  thenable_arg env T = Some A /\
  (forall d, MyAwaited env (S d) T = MyAwaited env d A) /\
  (A = TString -> forall d, MyAwaited env (S d) T = Some TString).
Proof.
  intros Hm Hf.
  assert (Ht : thenable_arg env T = Some A).
  { unfold thenable_arg, then_member. rewrite Hm, Hf. reflexivity. }
  assert (Hp : promise_arg T = None).
  { destruct T; try reflexivity. discriminate Hm. }
  assert (Hu : is_union T = false).
  { destruct T; try reflexivity. discriminate Hm. }
  assert (Hw : unwrap env T = Some A).
  { unfold unwrap. rewrite Hp. exact Ht. }
  split; [exact Ht | split].
  - intros d. apply MyAwaited_step; assumption.
  - intros -> d. rewrite (MyAwaited_step env d T TString Hu Hw).
    apply MyAwaited_base; reflexivity.
Qed.



End MyAwaitedClaims.

(** *** MyAwaited on concrete types *)




Lemma plain_type_then_is_string : plain_type ∅ then_is_string.
Proof.
  apply (plain_other_then ∅ then_is_string [("then", TString)] TString);
    [reflexivity | reflexivity |].
  apply takes_no_callback_other; [reflexivity | intros P R H; discriminate H].
Defined.



(** [then] returns a Promise of a number and its callback a number; the
    result is the [string] the callback receives. *)
Lemma MyAwaited_thenable_callback_argument_witness :
  MyAwaited ∅ 1 (thenable TString TNumber (TPromise TNumber)) = Some TString.
Proof.
  destruct (MyAwaited_thenable_callback_argument ∅
              (thenable TString TNumber (TPromise TNumber))
              [("then", TFun (TFun TString TNumber) (TPromise TNumber))]
              TString TNumber (TPromise TNumber) eq_refl eq_refl)
    as (_ & _ & H).
  apply H. reflexivity.
Defined.





(** The open question of the spec: on the self-referential thenable [Loop]
    every depth bound is exhausted, and the type has no finite nesting. *)
Lemma MyAwaited_Loop_exhausts (d : nat) :
  MyAwaited loop_env d (TRef "Loop") = None.
Proof.
  assert (Hw : unwrap loop_env (TRef "Loop") = Some (TRef "Loop"))
    by (vm_compute; reflexivity).
  induction d as [|d IH].
  - apply (MyAwaited_stuck loop_env (TRef "Loop") (TRef "Loop") eq_refl Hw).
  - rewrite (MyAwaited_step loop_env d (TRef "Loop") (TRef "Loop") eq_refl Hw).
    exact IH.
Qed.

Lemma Loop_no_finite_nesting (d : nat) (R : ty) :
  ~ layers loop_env (TRef "Loop") d R.
Proof.
  intros Hl. pose proof (layers_MyAwaited loop_env _ _ _ Hl) as HR.
  rewrite MyAwaited_Loop_exhausts in HR. discriminate HR.
Qed.

(** ** Facts about constraints and indexed access *)

Section ConstraintFacts.

Variable env : decls.

Lemma size_TObj (ms : members) : size (TObj ms) = S (members_size ms).
Proof. reflexivity. Qed.

Lemma size_pos (T : ty) : 1 <= size T.
Proof. destruct T; simpl; lia. Qed.

Lemma field_size (k : string) (ms : members) (t : ty) :
  field k ms = Some t -> size t <= members_size ms.
Proof.
  induction ms as [|[k' t'] rest IH]; simpl; [discriminate|].
  destruct (String.eqb k k').
  - intros [= ->]. lia.
  - intros H. specialize (IH H). lia.
Qed.

(** The members of an object or a reference are counted in its weight. *)
Lemma members_weight (P : ty) (ms : members) :
  members_of env P = Some ms -> union_weight env P = S (members_size ms).
Proof.
  destruct P; simpl; try discriminate.
  - intros [= ->].
    change (size (TObj ms) = S (members_size ms)). apply size_TObj.
  - intros ->. reflexivity.
Qed.

(** Assignability to [boolean] . *)
Lemma assignable_boolean_sound (n : nat) :
  forall s, assignable env n s TBoolean = true -> boolean_type s.
Proof.
  induction n as [|n IH]; intros s H; [discriminate H|].
  destruct s; simpl in H; try discriminate H.
  - apply boolean_type_base.
  - apply boolean_type_lit.
  - apply andb_prop in H as [H1 H2].
    apply boolean_type_union; apply IH; assumption.
Qed.

Lemma assignable_boolean_complete (s : ty) :
  boolean_type s -> forall n, size s <= n -> assignable env n s TBoolean = true.
Proof.
  induction 1 as [| b | a b _ IHa _ IHb]; intros n Hn.
  - destruct n; [simpl in Hn; lia | reflexivity].
  - destruct n; [simpl in Hn; lia | reflexivity].
  - destruct n as [|n]; [simpl in Hn; lia|].
    simpl in Hn. simpl. rewrite IHa, IHb by lia. reflexivity.
Qed.

(** One comparison against the constraint, on a type that is not a
    union. *)
Lemma assignable_strict_step (n : nat) (P : ty) :
  is_union P = false ->
  assignable env (S n) P strict_boolean =
  match members_of env P with
  | Some ms =>
      match field "strict" ms with
      | Some s => assignable env n s TBoolean
      | None => false
      end && true
  | None => false
  end.
Proof. destruct P; intros Hu; try discriminate Hu; reflexivity. Qed.

Lemma assignable_strict_sound (n : nat) :
  forall P, assignable env n P strict_boolean = true -> has_boolean_strict env P.
Proof.
  induction n as [|n IH]; intros P H; [discriminate H|].
  destruct (is_union P) eqn:Hu.
  - destruct P; try discriminate Hu. simpl in H.
    apply andb_prop in H as [H1 H2].
    apply has_strict_union; apply IH; assumption.
  - rewrite (assignable_strict_step n P Hu) in H.
    destruct (members_of env P) as [ms|] eqn:Hm; [|discriminate H].
    destruct (field "strict" ms) as [s|] eqn:Hf; [|discriminate H].
    rewrite andb_true_r in H.
    apply (has_strict_member env P ms s Hu Hm Hf).
    apply (assignable_boolean_sound n s H).
Qed.

Lemma assignable_strict_complete (P : ty) :
  has_boolean_strict env P ->
  forall n, union_weight env P < n -> assignable env n P strict_boolean = true.
Proof.
  induction 1 as [P ms t Hu Hm Hf Hb | A B _ IHA _ IHB]; intros n Hn.
  - destruct n as [|n]; [lia|].
    rewrite (assignable_strict_step n P Hu), Hm, Hf, andb_true_r.
    apply (assignable_boolean_complete t Hb).
    rewrite (members_weight P ms Hm) in Hn.
    pose proof (field_size _ _ _ Hf). lia.
  - destruct n as [|n]; [lia|].
    simpl in Hn. simpl. rewrite IHA, IHB by lia. reflexivity.
Qed.

(** The checker accepts exactly the arguments with a boolean [strict]
    field. *)
Lemma extends_strict_boolean (P : ty) :
  extends env P strict_boolean = true <-> has_boolean_strict env P.
Proof.
  unfold extends. split.
  - apply assignable_strict_sound.
  - intros H. apply (assignable_strict_complete P H). lia.
Qed.

(** Under the constraint the lookup [Param['strict']] succeeds, with a
    boolean type. *)
Lemma index_access_strict (P : ty) :
  has_boolean_strict env P ->
  exists t, index_access env P "strict" = Ok t /\ boolean_type t.
Proof.
  induction 1 as [P ms t Hu Hm Hf Hb | A B _ (a & Ha & Hba) _ (b & Hb & Hbb)].
  - exists t. split; [|exact Hb].
    destruct P; try discriminate Hu; simpl in Hm; try discriminate Hm.
    + injection Hm as ->. simpl. rewrite Hf. reflexivity.
    + simpl. rewrite Hm, Hf. reflexivity.
  - exists (TUnion a b). split; [|apply boolean_type_union; assumption].
    simpl. rewrite Ha, Hb. reflexivity.
Qed.

Lemma instantiate_TSConfig (P : ty) :
  instantiate env (TSConfig env) [P] =
  if extends env P strict_boolean
  then match index_access env P "strict" with
       | Ok t => Ok (TObj [("strict", t)])
       | Err e => Err e
       end
  else Err ConstraintViolation.
Proof.
  unfold instantiate. simpl.
  rewrite andb_true_r. reflexivity.
Qed.

End ConstraintFacts.

(** ** The claims about the generic aliases *)

Section GenericClaims.

Variable env : decls.

(** C5: [GroceryItem] and [GroceryStore] declare their parameters with
    neither a constraint nor a default; any types instantiate them, each
    field is the argument in its position, and the fields of
    [CapreseSalad] are the three singleton types, to which the base types
    are not assignable. *)
Theorem GroceryItem_fields_exact (Name Price InStock City : ty) :
  Forall (fun p => constraint p = None /\ default p = None)
         (tparams GroceryItem ++ tparams GroceryStore) /\
  instantiate env GroceryItem [Name; Price; InStock] =
    Ok (TObj [("name", Name); ("price", Price); ("inStock", InStock)]) /\
  instantiate env GroceryStore [Name; City] =
    Ok (TObj [("name", Name); ("city", City)]) /\
  CapreseSalad env =
    Ok (TObj [("name", TLitStr "Caprese Salad");
              ("price", TLitNum 1499 2);
              ("inStock", TLitBool true)]) /\
  extends env TString (TLitStr "Caprese Salad") = false /\
  extends env TNumber (TLitNum 1499 2) = false /\
  extends env TBoolean (TLitBool true) = false.
Proof.
  split; [|repeat split].
  repeat constructor.
Qed.

(** C7: with one type argument the [method] of [ApiRequest] is the
    singleton ['GET']; with two it is the second argument; [data] is the
    first argument in both. *)
Theorem ApiRequest_method_default (Data Method : ty) :
  instantiate env ApiRequest [Data] =
    Ok (TObj [("data", Data); ("method", TLitStr "GET")]) /\
  instantiate env ApiRequest [Data; Method] =
    Ok (TObj [("data", Data); ("method", Method)]).
Proof. split; reflexivity. Qed.

(** C6: the [strict] field of [TSConfig] is looked up in the argument:
    without an argument it is the singleton [true] of the default, for
    [{ strict: false }] it is the singleton [false], also when the argument
    has another field; in general it is the type of the argument's
    [strict] member. *)
Theorem TSConfig_strict_lookup :
  instantiate env (TSConfig env) [] = Ok (TObj [("strict", TLitBool true)]) /\
  instantiate env (TSConfig env) [TObj [("strict", TLitBool false)]] =
    Ok (TObj [("strict", TLitBool false)]) /\
  instantiate env (TSConfig env)
    [TObj [("strict", TLitBool false); ("extra", TLitNum 1 0)]] =
    Ok (TObj [("strict", TLitBool false)]) /\
  forall (P : ty) (ms : members) (t : ty),
    is_union P = false -> members_of env P = Some ms ->
    field "strict" ms = Some t -> boolean_type t ->
    instantiate env (TSConfig env) [P] = Ok (TObj [("strict", t)]).
Proof.
  split; [reflexivity | split; [reflexivity | split; [reflexivity|]]].
  intros P ms t Hu Hm Hf Hb.
  rewrite instantiate_TSConfig.
  assert (He : extends env P strict_boolean = true).
  { apply extends_strict_boolean.
    apply (has_strict_member env P ms t Hu Hm Hf Hb). }
  rewrite He.
  destruct P; try discriminate Hu; simpl in Hm; try discriminate Hm.
  - injection Hm as ->. simpl. rewrite Hf. reflexivity.
  - simpl. rewrite Hm, Hf. reflexivity.
Qed.

(** C8: the checker rejects [TSConfig<Param>] with a constraint violation
    exactly when [Param] has no boolean [strict] field, and accepts it
    otherwise, with a boolean type for [strict]. *)
Theorem TSConfig_constraint (Param : ty) :
  (~ has_boolean_strict env Param ->
   instantiate env (TSConfig env) [Param] = Err ConstraintViolation) /\
  (has_boolean_strict env Param ->
   exists t, instantiate env (TSConfig env) [Param] =
             Ok (TObj [("strict", t)]) /\ boolean_type t).
Proof.
  rewrite instantiate_TSConfig. split.
  - intros Hn. destruct (extends env Param strict_boolean) eqn:He; [|reflexivity].
    exfalso. apply Hn. apply extends_strict_boolean. exact He.
  - intros Hh.
    rewrite (proj2 (extends_strict_boolean env Param) Hh).
    destruct (index_access_strict env Param Hh) as (t & Ht & Hb).
    exists t. rewrite Ht. split; [reflexivity | exact Hb].
Qed.

End GenericClaims.

(** [{ strict: string }] and [string] have no boolean [strict] field. *)
Lemma strict_string_lacks :
  ~ has_boolean_strict ∅ (TObj [("strict", TString)]).
Proof.
  intros H. apply extends_strict_boolean in H. discriminate H.
Defined.

Lemma config_interface_has_strict :
  has_boolean_strict config_env (TRef "Config").
Proof.
  apply (has_strict_member config_env (TRef "Config")
           [("strict", TBoolean); ("outDir", TString)] TBoolean);
    [reflexivity | vm_compute; reflexivity | reflexivity
    | apply boolean_type_base].
Defined.

Lemma TSConfig_constraint_witness :
  instantiate ∅ (TSConfig ∅) [TObj [("strict", TString)]] =
    Err ConstraintViolation /\
  exists t, instantiate config_env (TSConfig config_env) [TRef "Config"] =
            Ok (TObj [("strict", t)]) /\ boolean_type t.
Proof.
  split.
  - apply (proj1 (TSConfig_constraint ∅ (TObj [("strict", TString)]))).
    exact strict_string_lacks.
  - apply (proj2 (TSConfig_constraint config_env (TRef "Config"))).
    exact config_interface_has_strict.
Defined.

Lemma TSConfig_strict_lookup_witness :
  instantiate config_env (TSConfig config_env) [TRef "Config"] =
    Ok (TObj [("strict", TBoolean)]).
Proof.
  destruct (TSConfig_strict_lookup config_env) as (_ & _ & _ & H).
  apply (H (TRef "Config") [("strict", TBoolean); ("outDir", TString)] TBoolean);
    [reflexivity | vm_compute; reflexivity | reflexivity
    | apply boolean_type_base].
Defined.

(** ** The claim about mapArray *)

Section MapArrayClaims.

Context {T U : Type}.

(** The loop appends the values of the callback on the next [rounds]
    elements, each with its index and the receiver, and leaves the
    receiver as it was. *)
Lemma map_loop_spec (fn : callback T U) (xs : list T) (rounds : nat) :
  forall (k : nat) (acc : list U),
    map_loop fn k rounds {| receiver := xs; mapped := acc |} =
    {| receiver := xs;
       mapped := acc ++ imap (fun i x => fn x (Some (k + i)) (Some xs))
                          (take rounds (drop k xs)) |}.
Proof.
  induction rounds as [|r IH]; intros k acc; simpl.
  - rewrite app_nil_r. reflexivity.
  - destruct (xs !! k) as [x|] eqn:Hk.
    + rewrite IH. rewrite (drop_S xs x k Hk). simpl.
      rewrite <- app_assoc. simpl. rewrite Nat.add_0_r.
      do 3 f_equal. apply imap_ext. intros i y _. simpl.
      rewrite Nat.add_succ_r. reflexivity.
    + rewrite IH. apply lookup_ge_None in Hk.
      rewrite !drop_ge by lia. rewrite !take_nil. reflexivity.
Qed.

Lemma Array_map_spec (arr : list T) (fn : callback T U) :
  Array_map arr fn =
  {| receiver := arr;
     mapped := imap (fun i x => fn x (Some i) (Some arr)) arr |}.
Proof.
  unfold Array_map. rewrite map_loop_spec. simpl.
  rewrite drop_0, firstn_all. reflexivity.
Qed.

Lemma mapArray_lookup (xs : list T) (f : callback T U) (i : nat) :
  mapArray xs f !! i = (fun x => f x (Some i) (Some xs)) <$> xs !! i.
Proof.
  unfold mapArray. rewrite Array_map_spec. simpl. apply list_lookup_imap.
Qed.

Lemma mapArray_length (xs : list T) (f : callback T U) :
  length (mapArray xs f) = length xs.
Proof.
  unfold mapArray. rewrite Array_map_spec. simpl. apply length_imap.
Qed.

Lemma mapArray_unary (xs : list T) (g : T -> U) :
  mapArray xs (unary g) = map g xs.
Proof.
  apply list_eq. intros i.
  rewrite mapArray_lookup, list_lookup_fmap. reflexivity.
Qed.

(** C4 (amended): [mapArray xs f] has the length of [xs]; its element at
    every index [i] is [f] called with the element of [xs] at [i], with [i]
    and with [xs] (and it has none where [xs] has none); for a transform of
    one parameter that is the transform of the element; and the input array
    is left as it was. *)
Theorem mapArray_pointwise (xs : list T) (f : callback T U) (g : T -> U) :
  length (mapArray xs f) = length xs /\
  (forall i : nat,
      mapArray xs f !! i = (fun x => f x (Some i) (Some xs)) <$> xs !! i) /\
  (forall i : nat, mapArray xs (unary g) !! i = g <$> xs !! i) /\
  mapArray_input_after xs f = xs.
Proof.
  split; [apply mapArray_length | split; [apply mapArray_lookup | split]].
  - intros i. rewrite mapArray_unary. apply list_lookup_fmap.
  - unfold mapArray_input_after. rewrite Array_map_spec. reflexivity.
Qed.

End MapArrayClaims.

(** C4 as stated fails for a transform that reads its second parameter:
    for [(x, i = 0) => x + i], a function from number to number, the
    result on [[10, 20, 30]] is [[10, 21, 32]], and its element at index 1
    is not the function applied to the element [20]. *)
Lemma mapArray_passes_index :
  mapArray [10; 20; 30] add_index = [10; 21; 32] /\
  map (call1 add_index) [10; 20; 30] = [10; 20; 30] /\
  mapArray [10; 20; 30] add_index !! 1 <>
    call1 add_index <$> [10; 20; 30] !! 1.
Proof.
  split; [reflexivity | split; [reflexivity|]].
  intros H. discriminate H.
Qed.

(** ** The claim about Width *)

(** C10: [Width] is the singleton type [800] of the [const], not [number]:
    [number] is not assignable to it; declared with [let], the same
    initialiser would give [number]. *)
Theorem Width_is_literal_800 :
  Width = TLitNum 800 0 /\
  Width <> TNumber /\
  extends ∅ TNumber Width = false /\
  extends ∅ Width TNumber = true /\
  typeof {| kind := Let; init := init width |} = TNumber.
Proof.
  split; [reflexivity | split; [discriminate | repeat split]].
Qed.

(** ** More about mapArray and identity *)

Section MapArrayLaws.

Context {T U V : Type}.

(** X1: mapping [identity] over an array returns an array with the same
    elements in the same order. *)
Theorem mapArray_identity (xs : list T) :
  mapArray xs (unary identity) = xs.
Proof.
  rewrite mapArray_unary.
  induction xs as [|x rest IH]; [reflexivity|].
  simpl. rewrite IH. reflexivity.
Qed.

(** X2: two calls of [mapArray] in a row give what one call gives with the
    transform that passes on the index, hands the first transform the
    input array and the second the array between the two calls; for
    transforms of one parameter that is the composed transform. *)
Theorem mapArray_compose (xs : list T) (f : callback T U) (g : callback U V)
    (f1 : T -> U) (g1 : U -> V) :
  mapArray (mapArray xs f) g =
    mapArray xs (fun x i _ => g (f x i (Some xs)) i (Some (mapArray xs f))) /\
  mapArray (mapArray xs (unary f1)) (unary g1) =
    mapArray xs (unary (fun x => g1 (f1 x))).
Proof.
  split.
  - apply list_eq. intros i. rewrite !mapArray_lookup.
    destruct (xs !! i); reflexivity.
  - rewrite !mapArray_unary. apply map_map.
Qed.

(** X3: a value occurs in the result of [mapArray] exactly when it is the
    value of the transform on an element of the input, its index and the
    input; for a transform of one parameter, the result on a concatenation
    is the concatenation of the two results. *)
Theorem mapArray_concat_elements (xs ys : list T) (f : callback T U)
    (f1 : T -> U) :
  (forall y : U, y ∈ mapArray xs f <->
                 exists i x, xs !! i = Some x /\ y = f x (Some i) (Some xs)) /\
  mapArray (xs ++ ys)%list (unary f1) =
    (mapArray xs (unary f1) ++ mapArray ys (unary f1))%list.
Proof.
  split.
  - intros y. rewrite list_elem_of_lookup. split.
    + intros [i Hi]. rewrite mapArray_lookup in Hi.
      destruct (xs !! i) as [x|] eqn:Hx; [|discriminate Hi].
      injection Hi as <-. exists i, x. split; [exact Hx | reflexivity].
    + intros (i & x & Hx & ->). exists i.
      rewrite mapArray_lookup, Hx. reflexivity.
  - rewrite !mapArray_unary. apply map_app.
Qed.

End MapArrayLaws.

(** ** More about MyAwaited *)

Section MyAwaitedDepth.

Variable env : decls.

(** X4: a plain type under [k] Promise wrappers is resolved to the plain
    type with a depth bound of [k], and with any larger one. *)
Theorem MyAwaited_promises (k : nat) (T : ty) :
  plain_type env T ->
  forall d, k <= d -> MyAwaited env d (promises k T) = Some T.
Proof.
  intros Hp d Hd.
  apply (MyAwaited_mono env k (promises k T) T d); [|exact Hd].
  clear d Hd. induction k as [|k IH]; simpl promises.
  - apply plain_type_fixed. exact Hp.
  - rewrite (MyAwaited_step env k (TPromise (promises k T)) (promises k T));
      [exact IH | reflexivity | reflexivity].
Qed.

(** X6: a thenable whose callback receives the thenable itself is never
    resolved: every depth bound is exhausted. *)
Theorem MyAwaited_self_thenable_unresolved (T : ty) :
  is_union T = false -> unwrap env T = Some T ->
  forall d, MyAwaited env d T = None.
Proof.
  intros Hu Hw d. induction d as [|d IH].
  - apply (MyAwaited_stuck env T T Hu Hw).
  - rewrite (MyAwaited_step env d T T Hu Hw). exact IH.
Qed.

(** X7: MyAwaited goes through [Nullable]: [MyAwaited<T | null>] is
    [MyAwaited<T> | null]. *)
Theorem MyAwaited_Nullable (T R : ty) :
  awaited env (Nullable T) R <-> exists r, R = Nullable r /\ awaited env T r.
Proof.
  unfold Nullable. rewrite awaited_union. split.
  - intros (a & b & -> & Ha & Hb). exists a. split; [|exact Ha].
    f_equal. apply (awaited_unique env TNull); [exact Hb|].
    exists 0. reflexivity.
  - intros (r & -> & Hr). exists r, TNull.
    split; [reflexivity | split; [exact Hr | exists 0; reflexivity]].
Qed.

End MyAwaitedDepth.

Lemma MyAwaited_promises_witness :
  MyAwaited ∅ 5 (promises 3 then_is_string) = Some then_is_string.
Proof.
  apply (MyAwaited_promises ∅ 3 then_is_string plain_type_then_is_string 5).
  lia.
Defined.

Lemma MyAwaited_self_thenable_unresolved_witness :
  MyAwaited loop_env 50 (TRef "Loop") = None.
Proof.
  apply (MyAwaited_self_thenable_unresolved loop_env (TRef "Loop"));
    [reflexivity | vm_compute; reflexivity].
Defined.

(** ** More about the generic aliases *)

Section GenericArity.

Variable env : decls.

(** X8: [GroceryItem] takes three type arguments and [GroceryStore] two:
    the checker reports an arity mismatch exactly for any other number. *)
Theorem Grocery_arity (args : list ty) :
  (instantiate env GroceryItem args = Err ArityMismatch <-> length args <> 3) /\
  (instantiate env GroceryStore args = Err ArityMismatch <-> length args <> 2).
Proof.
  split.
  - destruct args as [|a [|b [|c [|d rest]]]]; simpl;
      (split; [intros H; try discriminate H; lia | intros H; try lia; reflexivity]).
  - destruct args as [|a [|b [|c rest]]]; simpl;
      (split; [intros H; try discriminate H; lia | intros H; try lia; reflexivity]).
Qed.

(** The result of [TSConfig<P>], when there is one. *)
Lemma instantiate_TSConfig_Ok (P R : ty) :
  instantiate env (TSConfig env) [P] = Ok R <->
  has_boolean_strict env P /\
  exists t, index_access env P "strict" = Ok t /\ R = TObj [("strict", t)].
Proof.
  rewrite instantiate_TSConfig. split.
  - intros H. destruct (extends env P strict_boolean) eqn:He; [|discriminate H].
    apply extends_strict_boolean in He. split; [exact He|].
    destruct (index_access env P "strict") as [t|e]; [|discriminate H].
    exists t. injection H as <-. split; reflexivity.
  - intros (Hh & t & Ht & ->).
    rewrite (proj2 (extends_strict_boolean env P) Hh), Ht. reflexivity.
Qed.

Lemma has_boolean_strict_union (A B : ty) :
  has_boolean_strict env (TUnion A B) <->
  has_boolean_strict env A /\ has_boolean_strict env B.
Proof.
  split.
  - intros H. inversion H as [P ms t Hu | A' B' HA HB]; subst.
    + discriminate Hu.
    + split; assumption.
  - intros [HA HB]. apply has_strict_union; assumption.
Qed.

Lemma has_boolean_strict_object (ms : members) :
  has_boolean_strict env (TObj ms) <->
  exists t, field "strict" ms = Some t /\ boolean_type t.
Proof.
  split.
  - intros H. inversion H as [P ms' t Hu Hm Hf Hb |]; subst.
    injection Hm as <-. exists t. split; assumption.
  - intros (t & Hf & Hb).
    apply (has_strict_member env (TObj ms) ms t eq_refl eq_refl Hf Hb).
Qed.

(** X9: [ApiRequest] takes one or two type arguments and [TSConfig] none
    or one; the checker reports an arity mismatch exactly for any other
    number. *)
Theorem defaults_arity (args : list ty) :
  (instantiate env ApiRequest args = Err ArityMismatch <->
   length args = 0 \/ 2 < length args) /\
  (instantiate env (TSConfig env) args = Err ArityMismatch <->
   1 < length args).
Proof.
  split.
  - destruct args as [|a [|b [|c rest]]]; simpl;
      (split; [intros H; try discriminate H; lia
              | intros H; try lia; reflexivity]).
  - destruct args as [|P [|b rest]].
    + simpl. split; [intros H; discriminate H | lia].
    + split; [|simpl; lia]. intros H. exfalso.
      rewrite instantiate_TSConfig in H.
      destruct (extends env P strict_boolean) eqn:He; [|discriminate H].
      apply extends_strict_boolean in He.
      destruct (index_access_strict env P He) as (t & Ht & _).
      rewrite Ht in H. discriminate H.
    + simpl. split; [lia | reflexivity].
Qed.

(** X10: [TSConfig] applied to its own result gives the result again. *)
Theorem TSConfig_idempotent (P R : ty) :
  instantiate env (TSConfig env) [P] = Ok R ->
  instantiate env (TSConfig env) [R] = Ok R.
Proof.
  intros H. apply instantiate_TSConfig_Ok in H as (Hh & t & Ht & ->).
  destruct (index_access_strict env P Hh) as (t' & Ht' & Hb).
  assert (t' = t) as -> by congruence.
  apply instantiate_TSConfig_Ok. split.
  - apply has_boolean_strict_object. exists t. split; [reflexivity | exact Hb].
  - exists t. split; reflexivity.
Qed.

(** X11: [TSConfig] of a union is accepted exactly when it is of both
    constituents, and its [strict] is then the union of theirs. *)
Theorem TSConfig_union (A B R : ty) :
  instantiate env (TSConfig env) [TUnion A B] = Ok R <->
  exists a b, R = TObj [("strict", TUnion a b)] /\
              instantiate env (TSConfig env) [A] = Ok (TObj [("strict", a)]) /\
              instantiate env (TSConfig env) [B] = Ok (TObj [("strict", b)]).
Proof.
  rewrite instantiate_TSConfig_Ok, has_boolean_strict_union. split.
  - intros ([HA HB] & t & Ht & ->).
    destruct (index_access_strict env A HA) as (a & Ha & _).
    destruct (index_access_strict env B HB) as (b & Hb & _).
    simpl in Ht. rewrite Ha, Hb in Ht. injection Ht as <-.
    exists a, b. split; [reflexivity|].
    split; apply instantiate_TSConfig_Ok; (split; [assumption|]); eauto.
  - intros (a & b & -> & HA & HB).
    apply instantiate_TSConfig_Ok in HA as (HA & ta & Hta & Ea).
    apply instantiate_TSConfig_Ok in HB as (HB & tb & Htb & Eb).
    injection Ea as ->. injection Eb as ->.
    split; [split; assumption|].
    exists (TUnion ta tb). simpl. rewrite Hta, Htb. split; reflexivity.
Qed.

(** X12: [TSConfig] looks at nothing but the [strict] member of an object
    argument: two objects with the same [strict] give the same result,
    accepted or rejected. *)
Theorem TSConfig_only_strict (ms ms' : members) :
  field "strict" ms = field "strict" ms' ->
  instantiate env (TSConfig env) [TObj ms] =
  instantiate env (TSConfig env) [TObj ms'].
Proof.
  intros Hf. rewrite !instantiate_TSConfig.
  assert (He : extends env (TObj ms) strict_boolean =
               extends env (TObj ms') strict_boolean).
  { apply Bool.eq_iff_eq_true.
    rewrite !extends_strict_boolean, !has_boolean_strict_object, Hf.
    reflexivity. }
  rewrite He. simpl. rewrite Hf. reflexivity.
Qed.

End GenericArity.

Lemma TSConfig_idempotent_witness :
  instantiate config_env (TSConfig config_env) [TObj [("strict", TBoolean)]] =
  Ok (TObj [("strict", TBoolean)]).
Proof.
  apply (TSConfig_idempotent config_env (TRef "Config")).
  vm_compute. reflexivity.
Defined.

Lemma TSConfig_only_strict_witness :
  instantiate ∅ (TSConfig ∅)
    [TObj [("outDir", TString); ("strict", TLitBool false)]] =
  instantiate ∅ (TSConfig ∅) [TObj [("strict", TLitBool false)]].
Proof.
  apply (TSConfig_only_strict ∅). reflexivity.
Defined.

(** ** Assignability to base types and to records of them *)

Section RecordFacts.

Variable env : decls.

Lemma assignable_base_sound (n : nat) (b : base) :
  forall s, assignable env n s (base_ty b) = true -> of_base b s.
Proof.
  induction n as [|n IH]; intros s H; [discriminate H|].
  destruct s; destruct b; simpl in H; try discriminate H;
    try (apply andb_prop in H as [H1 H2];
         apply of_base_union; apply IH; assumption).
  - apply (of_base_self BString).
  - apply (of_base_self BNumber).
  - apply (of_base_self BBoolean).
  - apply of_base_string.
  - apply of_base_number.
  - apply of_base_boolean.
Qed.

Lemma assignable_base_complete (b : base) (s : ty) :
  of_base b s ->
  forall n, size s <= n -> assignable env n s (base_ty b) = true.
Proof.
  induction 1 as [b | s | d k | v | b x y _ IHx _ IHy]; intros n Hn;
    (destruct n as [|n]; [simpl in Hn; try destruct b; simpl in Hn; lia|]).
  - destruct b; reflexivity.
  - reflexivity.
  - reflexivity.
  - reflexivity.
  - simpl in Hn. simpl. rewrite IHx, IHy by lia. reflexivity.
Qed.

(** A type of a base type mentions no interface: its weight is its size. *)
Lemma of_base_weight (b : base) (s : ty) :
  of_base b s -> union_weight env s = size s.
Proof.
  induction 1 as [b | s | d k | v | b x y _ IHx _ IHy];
    try reflexivity.
  - destruct b; reflexivity.
  - simpl. rewrite IHx, IHy. reflexivity.
Qed.

(** The checker accepts for a constraint [extends string] (or [number],
    [boolean]) exactly the types of that base type. *)
Lemma extends_base (b : base) (s : ty) :
  extends env s (base_ty b) = true <-> of_base b s.
Proof.
  unfold extends. split.
  - apply assignable_base_sound.
  - intros H. apply (assignable_base_complete b s H).
    rewrite (of_base_weight b s H). lia.
Qed.

Lemma assignable_record_step
    (fs : list (string * base)) (Tgt : ty) (n : nat) (P : ty) :
  record_target env fs Tgt -> is_union P = false ->
  assignable env (S n) P Tgt =
  match members_of env P with
  | Some sms => asked env n sms (record_of fs)
  | None => false
  end.
Proof.
  intros [-> | (name & -> & Hn)] Hu.
  - destruct P; try discriminate Hu; reflexivity.
  - destruct P; try discriminate Hu; simpl; rewrite Hn; reflexivity.
Qed.

Lemma assignable_union_step (n : nat) (A B Tgt : ty) :
  assignable env (S n) (TUnion A B) Tgt =
  assignable env n A Tgt && assignable env n B Tgt.
Proof. reflexivity. Qed.

Lemma asked_sound (n : nat) (sms : members) (fs : list (string * base)) :
  asked env n sms (record_of fs) = true ->
  Forall (fun kb : string * base =>
            exists s, field kb.1 sms = Some s /\ of_base kb.2 s) fs.
Proof.
  induction fs as [|[k b] rest IH]; intros H; [constructor|].
  simpl in H. apply andb_prop in H as [H1 H2].
  constructor; [|apply IH; exact H2].
  simpl. destruct (field k sms) as [s|]; [|discriminate H1].
  exists s. split; [reflexivity|].
  apply (assignable_base_sound n b s H1).
Qed.

Lemma asked_complete (n : nat) (sms : members) (fs : list (string * base)) :
  members_size sms <= n ->
  Forall (fun kb : string * base =>
            exists s, field kb.1 sms = Some s /\ of_base kb.2 s) fs ->
  asked env n sms (record_of fs) = true.
Proof.
  intros Hn. induction 1 as [|[k b] rest (s & Hf & Hb) _ IH]; [reflexivity|].
  simpl in Hf, Hb |- *. rewrite Hf.
  rewrite (assignable_base_complete b s Hb n).
  - exact IH.
  - pose proof (field_size _ _ _ Hf). lia.
Qed.

Lemma assignable_record_sound (fs : list (string * base)) (Tgt : ty) :
  record_target env fs Tgt ->
  forall n P, assignable env n P Tgt = true -> has_fields env fs P.
Proof.
  intros Ht. induction n as [|n IH]; intros P H; [discriminate H|].
  destruct (is_union P) eqn:Hu.
  - destruct P; try discriminate Hu.
    rewrite assignable_union_step in H. apply andb_prop in H as [H1 H2].
    apply has_fields_union; apply IH; assumption.
  - rewrite (assignable_record_step fs Tgt n P Ht Hu) in H.
    destruct (members_of env P) as [sms|] eqn:Hm; [|discriminate H].
    apply (has_fields_members env fs P sms Hu Hm).
    apply (asked_sound n sms fs H).
Qed.

Lemma assignable_record_complete (fs : list (string * base)) (Tgt : ty) :
  record_target env fs Tgt ->
  forall P, has_fields env fs P ->
  forall n, union_weight env P < n -> assignable env n P Tgt = true.
Proof.
  intros Ht P. induction 1 as [P ms Hu Hm Hall | A B _ IHA _ IHB]; intros n Hn.
  - destruct n as [|n]; [lia|].
    rewrite (assignable_record_step fs Tgt n P Ht Hu), Hm.
    apply asked_complete; [|exact Hall].
    rewrite (members_weight env P ms Hm) in Hn. lia.
  - destruct n as [|n]; [lia|].
    simpl in Hn. rewrite assignable_union_step, IHA, IHB by lia. reflexivity.
Qed.

(** The checker accepts for a record of base-typed fields exactly the types
    that have the fields. *)
Lemma extends_record (fs : list (string * base)) (Tgt P : ty) :
  record_target env fs Tgt ->
  extends env P Tgt = true <-> has_fields env fs P.
Proof.
  intros Ht. unfold extends. split.
  - apply (assignable_record_sound fs Tgt Ht).
  - intros H. apply (assignable_record_complete fs Tgt Ht P H). lia.
Qed.

End RecordFacts.

(** ** The record declarations and the guide's constrained aliases *)

Section RecordClaims.

Variable env : decls.

(** X13: with [Character] declared, a type is assignable to it exactly when
    it has the members [id], of a number type, and [name], [status] and
    [species], of string types; members beyond these are allowed, and a
    union is assignable when every constituent is. *)
Theorem Character_assignable (P : ty) :
  env !! "Character" = Some Character ->
  extends env P (TRef "Character") = true <->
  has_fields env [("id", BNumber); ("name", BString); ("status", BString);
                  ("species", BString)] P.
Proof.
  intros Hd. apply extends_record. right. exists "Character".
  split; [reflexivity | exact Hd].
Qed.

(** X14: a type is assignable to [Margin] exactly when it has the four
    sides [top], [right], [bottom] and [left], each of a number type. *)
Theorem Margin_assignable (P : ty) :
  extends env P Margin = true <->
  has_fields env [("top", BNumber); ("right", BNumber); ("bottom", BNumber);
                  ("left", BNumber)] P.
Proof. apply extends_record. left. reflexivity. Qed.

(** X15: the guide's constrained [GroceryItem] and [GroceryStore] accept
    exactly the arguments of string, number and boolean types, give for
    them the type the unconstrained aliases of the exercise give, and
    reject every other argument list of the right length as a constraint
    violation. *)
Theorem Guide_Grocery_restricts (Name Price InStock City : ty) :
  (of_base BString Name /\ of_base BNumber Price /\ of_base BBoolean InStock ->
   instantiate env Guide.GroceryItem [Name; Price; InStock] =
   instantiate env GroceryItem [Name; Price; InStock]) /\
  (~ (of_base BString Name /\ of_base BNumber Price /\
      of_base BBoolean InStock) ->
   instantiate env Guide.GroceryItem [Name; Price; InStock] =
   Err ConstraintViolation) /\
  (of_base BString Name /\ of_base BString City ->
   instantiate env Guide.GroceryStore [Name; City] =
   instantiate env GroceryStore [Name; City]) /\
  (~ (of_base BString Name /\ of_base BString City) ->
   instantiate env Guide.GroceryStore [Name; City] = Err ConstraintViolation).
Proof.
  unfold instantiate. simpl.
  change TString with (base_ty BString).
  change TNumber with (base_ty BNumber).
  change TBoolean with (base_ty BBoolean).
  repeat split.
  - intros (HN & HP & HI).
    rewrite (proj2 (extends_base env BString Name) HN).
    rewrite (proj2 (extends_base env BNumber Price) HP).
    rewrite (proj2 (extends_base env BBoolean InStock) HI).
    reflexivity.
  - intros Hn.
    destruct (extends env Name (base_ty BString)) eqn:EN; [|reflexivity].
    destruct (extends env Price (base_ty BNumber)) eqn:EP; [|reflexivity].
    destruct (extends env InStock (base_ty BBoolean)) eqn:EI; [|reflexivity].
    exfalso. apply Hn.
    split; [|split]; apply (proj1 (extends_base env _ _)); assumption.
  - intros (HN & HC).
    rewrite (proj2 (extends_base env BString Name) HN).
    rewrite (proj2 (extends_base env BString City) HC).
    reflexivity.
  - intros Hn.
    destruct (extends env Name (base_ty BString)) eqn:EN; [|reflexivity].
    destruct (extends env City (base_ty BString)) eqn:EC; [|reflexivity].
    exfalso. apply Hn.
    split; apply (proj1 (extends_base env _ _)); assumption.
Qed.

(** X16: with [ProductConstraints] declared, [SafeGroceryItem] of a record
    of a name, a price and a stock flag of string, number and boolean
    types is the type [GroceryItem] gives for the three; an argument
    without these fields is rejected as a constraint violation. *)
Theorem SafeGroceryItem_agrees (Name Price InStock P : ty) :
  env !! "ProductConstraints" = Some Guide.ProductConstraints ->
  (of_base BString Name -> of_base BNumber Price -> of_base BBoolean InStock ->
   instantiate env (Guide.SafeGroceryItem env)
     [TObj [("name", Name); ("price", Price); ("inStock", InStock)]] =
   instantiate env GroceryItem [Name; Price; InStock]) /\
  (~ has_fields env [("name", BString); ("price", BNumber);
                     ("inStock", BBoolean)] P ->
   instantiate env (Guide.SafeGroceryItem env) [P] = Err ConstraintViolation).
Proof.
  intros Hd.
  assert (Ht : record_target env
                 [("name", BString); ("price", BNumber); ("inStock", BBoolean)]
                 (TRef "ProductConstraints")).
  { right. exists "ProductConstraints". split; [reflexivity | exact Hd]. }
  split.
  - intros HN HP HI. unfold instantiate.
    cbn [tparams Guide.SafeGroceryItem GroceryItem fill default constraint
         satisfies plain].
    rewrite (proj2 (extends_record env _ _ _ Ht)).
    + reflexivity.
    + apply (has_fields_members env _ _
               [("name", Name); ("price", Price); ("inStock", InStock)]);
        [reflexivity | reflexivity |].
      repeat constructor; simpl; eexists; (split; [reflexivity | assumption]).
  - intros Hn. unfold instantiate.
    cbn [tparams Guide.SafeGroceryItem fill default constraint satisfies].
    destruct (extends env P (TRef "ProductConstraints")) eqn:He; [|reflexivity].
    exfalso. apply Hn. apply (proj1 (extends_record env _ _ _ Ht)). exact He.
Qed.

End RecordClaims.

Lemma Character_assignable_witness :
  extends exercise_env rick (TRef "Character") = true <->
  has_fields exercise_env
    [("id", BNumber); ("name", BString); ("status", BString);
     ("species", BString)] rick.
Proof.
  apply (Character_assignable exercise_env rick). vm_compute. reflexivity.
Defined.

Lemma Guide_Grocery_restricts_witness :
  instantiate ∅ Guide.GroceryItem
    [TLitStr "Caprese Salad"; TLitNum 1499 2; TLitBool true] = CapreseSalad ∅.
Proof.
  apply (proj1 (Guide_Grocery_restricts ∅ (TLitStr "Caprese Salad")
                  (TLitNum 1499 2) (TLitBool true) TString)).
  split; [apply of_base_string | split;
          [apply of_base_number | apply of_base_boolean]].
Defined.

Lemma SafeGroceryItem_agrees_witness :
  instantiate Guide.env (Guide.SafeGroceryItem Guide.env)
    [TObj [("name", TLitStr "Caprese Salad"); ("price", TLitNum 1499 2);
           ("inStock", TLitBool true)]] = CapreseSalad Guide.env.
Proof.
  apply (proj1 (SafeGroceryItem_agrees Guide.env (TLitStr "Caprese Salad")
                  (TLitNum 1499 2) (TLitBool true) TString
                  ltac:(vm_compute; reflexivity)));
    [apply of_base_string | apply of_base_number | apply of_base_boolean].
Defined.

(** ** The class Stack of the guide *)

Section StackClaims.

Context {V : Type}.
Variable undefined : V.

Local Open Scope list_scope.

Lemma Array_pop_push (arr : list V) (x : V) :
  Guide.Array_pop undefined (Guide.Array_push arr x) = (x, arr).
Proof.
  unfold Guide.Array_pop, Guide.Array_push.
  rewrite length_app. simpl. rewrite Nat.add_1_r.
  rewrite (list_lookup_middle arr [] x (length arr) eq_refl).
  rewrite take_app_length. reflexivity.
Qed.

Lemma push_all_snoc (xs : list V) (x : V) (s : Guide.Stack V) :
  Guide.push_all (xs ++ [x]) s = Guide.push x (Guide.push_all xs s).
Proof. unfold Guide.push_all. rewrite foldl_app. reflexivity. Qed.

Lemma Stack_pop_push_aux (x : V) (s : Guide.Stack V) :
  Guide.pop undefined (Guide.push x s) = (x, s).
Proof.
  destruct s as [arr]. unfold Guide.pop, Guide.push. simpl.
  rewrite Array_pop_push. reflexivity.
Qed.

(** X17: [pop] after [push] returns the item pushed and leaves the stack
    as it was before the push, whatever the stack held. *)
Theorem Stack_pop_push (x : V) (s : Guide.Stack V) :
  Guide.pop undefined (Guide.push x s) = (x, s) /\
  length (Guide.items (Guide.push x s)) = S (length (Guide.items s)).
Proof.
  split; [apply Stack_pop_push_aux|].
  unfold Guide.push, Guide.Array_push. simpl.
  rewrite length_app. simpl. lia.
Qed.

(** X18: on the empty stack [pop] returns [undefined] and leaves the stack
    empty; on a stack with a last item it returns that item and leaves the
    items before it; so on a stack that holds no [undefined] item, [pop]
    returns [undefined] exactly when the stack is empty. *)
Theorem Stack_pop_empty (s : Guide.Stack V) :
  (Guide.items s = [] -> Guide.pop undefined s = (undefined, s)) /\
  (forall rest x, Guide.items s = rest ++ [x] ->
                  Guide.pop undefined s = (x, {| Guide.items := rest |})) /\
  (undefined ∉ Guide.items s ->
   ((Guide.pop undefined s).1 = undefined <-> Guide.items s = [])).
Proof.
  destruct s as [arr]. simpl. split; [|split].
  - intros ->. reflexivity.
  - intros rest x ->.
    change (rest ++ [x]) with (Guide.Array_push rest x).
    unfold Guide.pop. simpl. rewrite Array_pop_push. reflexivity.
  - intros Hn. destruct arr as [|a rest _] using rev_ind.
    + split; reflexivity.
    + change (rest ++ [a]) with (Guide.Array_push rest a).
      unfold Guide.pop. simpl. rewrite Array_pop_push. simpl. split.
      * intros ->. exfalso. apply Hn. unfold Guide.Array_push.
        apply elem_of_app. right. apply list_elem_of_singleton. reflexivity.
      * intros H. unfold Guide.Array_push in H.
        destruct rest; discriminate H.
Qed.

(** X19: the stack is last in, first out: after pushing the items of a
    list, as many calls of [pop] return them in reverse order and leave
    the stack as it was; on a new stack, calls beyond that return
    [undefined]. *)
Theorem Stack_lifo (xs : list V) (s : Guide.Stack V) (k : nat) :
  Guide.pop_n undefined (length xs) (Guide.push_all xs s) = (rev xs, s) /\
  Guide.pop_n undefined (length xs + k) (Guide.push_all xs Guide.new) =
    (rev xs ++ replicate k undefined, Guide.new).
Proof.
  unfold Guide.new.
  assert (Hempty : forall n,
             Guide.pop_n undefined n {| Guide.items := @nil V |} =
             (replicate n undefined, {| Guide.items := [] |})).
  { induction n as [|n IH]; [reflexivity|].
    simpl. rewrite IH. reflexivity. }
  split.
  - induction xs as [|x xs IH] using rev_ind; [reflexivity|].
    rewrite push_all_snoc, length_app. cbn [length].
    rewrite Nat.add_1_r. cbn [Guide.pop_n].
    rewrite Stack_pop_push_aux. cbn [fst snd].
    rewrite IH, rev_unit. reflexivity.
  - induction xs as [|x xs IH] using rev_ind; [apply Hempty|].
    rewrite push_all_snoc, length_app. cbn [length].
    replace (length xs + 1 + k) with (S (length xs + k)) by lia.
    cbn [Guide.pop_n]. rewrite Stack_pop_push_aux. cbn [fst snd].
    rewrite IH, rev_unit. reflexivity.
Qed.

End StackClaims.

(** ** The functions filter and reverse of the guide *)

Section ArrayClaims.

Context {T : Type}.

Local Open Scope list_scope.

(** The loop appends those of the next [rounds] elements of which the
    predicate holds, and leaves the receiver as it was. *)
Lemma filter_loop_spec (p : callback T bool) (xs : list T) (rounds : nat) :
  forall (k : nat) (acc : list T),
    Guide.filter_loop p k rounds {| Guide.scanned := xs; Guide.kept := acc |} =
    {| Guide.scanned := xs;
       Guide.kept := acc ++ Guide.keep_from p xs k (take rounds (drop k xs)) |}.
Proof.
  induction rounds as [|r IH]; intros k acc; simpl.
  - rewrite app_nil_r. reflexivity.
  - destruct (xs !! k) as [x|] eqn:Hk.
    + rewrite (drop_S xs x k Hk). simpl. destruct (p x (Some k) (Some xs)).
      * rewrite IH. simpl. rewrite <- app_assoc. reflexivity.
      * rewrite IH. reflexivity.
    + rewrite IH. apply lookup_ge_None in Hk.
      rewrite !drop_ge by lia. rewrite !take_nil. reflexivity.
Qed.

Lemma filter_keep_from (arr : list T) (p : callback T bool) :
  Guide.filter arr p = Guide.keep_from p arr 0 arr /\
  Guide.filter_input_after arr p = arr.
Proof.
  unfold Guide.filter, Guide.filter_input_after, Guide.Array_filter.
  rewrite filter_loop_spec. simpl. rewrite drop_0, firstn_all.
  split; reflexivity.
Qed.

Lemma keep_from_elem (p : callback T bool) (arr l : list T) :
  forall (k : nat) (x : T),
    x ∈ Guide.keep_from p arr k l <->
    exists j, l !! j = Some x /\ p x (Some (k + j)) (Some arr) = true.
Proof.
  induction l as [|y l IH]; intros k x; simpl.
  - split; [intros H; inversion H | intros (j & Hj & _); discriminate Hj].
  - destruct (p y (Some k) (Some arr)) eqn:Hp.
    + rewrite elem_of_cons, IH. split.
      * intros [-> | (j & Hj & Hpj)].
        -- exists 0. rewrite Nat.add_0_r. split; [reflexivity | exact Hp].
        -- exists (S j). rewrite Nat.add_succ_r. split; assumption.
      * intros ([|j] & Hj & Hpj).
        -- left. injection Hj as <-. reflexivity.
        -- right. exists j. rewrite Nat.add_succ_r in Hpj. split; assumption.
    + rewrite IH. split.
      * intros (j & Hj & Hpj). exists (S j). rewrite Nat.add_succ_r.
        split; assumption.
      * intros ([|j] & Hj & Hpj).
        -- injection Hj as <-. rewrite Nat.add_0_r in Hpj. congruence.
        -- exists j. rewrite Nat.add_succ_r in Hpj. split; assumption.
Qed.

Lemma keep_from_sublist (p : callback T bool) (arr l : list T) :
  forall k, Guide.keep_from p arr k l `sublist_of` l.
Proof.
  induction l as [|x l IH]; intros k; simpl; [constructor|].
  destruct (p x (Some k) (Some arr));
    [apply sublist_skip | apply sublist_cons]; apply IH.
Qed.

Lemma keep_from_unary (p1 : T -> bool) (arr l : list T) :
  forall k, Guide.keep_from (unary p1) arr k l = List.filter p1 l.
Proof.
  induction l as [|x l IH]; intros k; simpl; [reflexivity|].
  unfold unary at 1. destruct (p1 x); rewrite IH; reflexivity.
Qed.

Lemma filter_unary (arr : list T) (p1 : T -> bool) :
  Guide.filter arr (unary p1) = List.filter p1 arr.
Proof.
  rewrite (proj1 (filter_keep_from arr (unary p1))). apply keep_from_unary.
Qed.

(** X20: [filter] returns the elements of the array of which the predicate
    holds when called with the element, its index and the array, and only
    those, in the order they have in the array, and leaves the array as it
    was; for a predicate of one parameter these are the elements of which
    the predicate holds. *)
Theorem Guide_filter_keeps (arr : list T) (p : callback T bool)
    (p1 : T -> bool) :
  (forall x, x ∈ Guide.filter arr p <->
             exists i, arr !! i = Some x /\ p x (Some i) (Some arr) = true) /\
  Guide.filter arr p `sublist_of` arr /\
  Guide.filter_input_after arr p = arr /\
  (forall x, In x (Guide.filter arr (unary p1)) <-> In x arr /\ p1 x = true).
Proof.
  destruct (filter_keep_from arr p) as [Hf Hi]. rewrite Hf.
  split; [|split; [apply keep_from_sublist | split; [exact Hi|]]].
  - intros x. apply (keep_from_elem p arr arr 0 x).
  - intros x. rewrite filter_unary. apply filter_In.
Qed.

(** X21: for predicates of one parameter, filtering twice is filtering
    once by both predicates. *)
Theorem Guide_filter_twice (arr : list T) (p q : T -> bool) :
  Guide.filter (Guide.filter arr (unary p)) (unary q) =
  Guide.filter arr (unary (fun x => p x && q x)).
Proof.
  rewrite !filter_unary.
  induction arr as [|x arr IH]; [reflexivity|].
  simpl. destruct (p x); simpl; [destruct (q x)|]; rewrite IH; reflexivity.
Qed.

Lemma insert_middle (l1 l2 : list T) (x y : T) (n : nat) :
  n = length l1 -> <[n := y]> (l1 ++ x :: l2) = l1 ++ y :: l2.
Proof.
  intros ->. rewrite insert_app_r_alt by lia.
  rewrite Nat.sub_diag. reflexivity.
Qed.

(** The loop of [reverse] on the middle of an array whose two ends have
    been exchanged already. *)
Lemma reverse_loop_spec (n : nat) :
  forall mid pre post : list T,
    length mid <= n -> length pre = length post ->
    Guide.reverse_loop (length mid / 2) (length pre)
      (length pre + length mid + length post) (pre ++ mid ++ post) =
    pre ++ rev mid ++ post.
Proof.
  induction n as [|n IH]; intros mid pre post Hn Hlen.
  - destruct mid; [reflexivity | simpl in Hn; lia].
  - destruct mid as [|x mid]; [reflexivity|].
    destruct mid as [|y m _] using rev_ind; [reflexivity|].
    assert (Hr : length (x :: m ++ [y]) / 2 = S (length m / 2)).
    { replace (length (x :: m ++ [y])) with (length m + 1 * 2)
        by (cbn [length]; rewrite length_app; cbn [length]; lia).
      rewrite Nat.div_add by lia. lia. }
    rewrite Hr. cbn [Guide.reverse_loop].
    assert (HL : pre ++ (x :: m ++ [y]) ++ post = pre ++ x :: m ++ y :: post).
    { simpl. rewrite <- app_assoc. reflexivity. }
    rewrite HL.
    rewrite (list_lookup_middle pre (m ++ y :: post) x (length pre) eq_refl).
    assert (Hup : length pre + length (x :: m ++ [y]) + length post
                  - length pre - 1 = length (pre ++ x :: m)).
    { rewrite !length_app. simpl. rewrite length_app. simpl. lia. }
    rewrite Hup.
    assert (HL' : pre ++ x :: m ++ y :: post = (pre ++ x :: m) ++ y :: post).
    { rewrite <- app_assoc. reflexivity. }
    rewrite HL' at 1.
    rewrite (list_lookup_middle (pre ++ x :: m) post y _ eq_refl).
    rewrite (insert_middle pre (m ++ y :: post) x y (length pre) eq_refl).
    assert (HL2 : pre ++ y :: m ++ y :: post = (pre ++ y :: m) ++ y :: post).
    { rewrite <- app_assoc. reflexivity. }
    rewrite HL2.
    rewrite (insert_middle (pre ++ y :: m) post y x).
    2:{ rewrite !length_app. reflexivity. }
    assert (HL3 : (pre ++ y :: m) ++ x :: post
                  = (pre ++ [y]) ++ m ++ (x :: post)).
    { rewrite <- !app_assoc. reflexivity. }
    rewrite HL3.
    replace (S (length pre)) with (length (pre ++ [y]))
      by (rewrite length_app; simpl; lia).
    replace (length pre + length (x :: m ++ [y]) + length post)
      with (length (pre ++ [y]) + length m + length (x :: post))
      by (rewrite !length_app; simpl; rewrite length_app; simpl; lia).
    rewrite (IH m (pre ++ [y]) (x :: post)).
    + simpl. rewrite rev_unit. simpl. rewrite <- !app_assoc. reflexivity.
    + simpl in Hn. rewrite length_app in Hn. simpl in Hn. lia.
    + rewrite length_app. simpl. lia.
Qed.

Lemma Array_reverse_spec (arr : list T) : Guide.Array_reverse arr = rev arr.
Proof.
  unfold Guide.Array_reverse.
  pose proof (reverse_loop_spec (length arr) arr [] [] (le_n _) eq_refl) as H.
  simpl in H. rewrite !app_nil_r, Nat.add_0_r in H. exact H.
Qed.

(** X23: [reverse] returns the items in reverse order, and the array it
    was given holds them in that order afterwards: the array is changed
    in place. *)
Theorem Guide_reverse_in_place (items : list T) :
  Guide.returned (Guide.reverse items) = rev items /\
  Guide.items_after (Guide.reverse items) = rev items /\
  length (Guide.returned (Guide.reverse items)) = length items.
Proof.
  unfold Guide.reverse. simpl. rewrite Array_reverse_spec.
  split; [reflexivity | split; [reflexivity | apply length_rev]].
Qed.

(** X24: reversing the array a second time restores it. *)
Theorem Guide_reverse_twice (items : list T) :
  Guide.items_after (Guide.reverse (Guide.items_after (Guide.reverse items))) =
  items.
Proof.
  unfold Guide.reverse. simpl. rewrite !Array_reverse_spec.
  apply rev_involutive.
Qed.

End ArrayClaims.

(** X22: for a transform and a predicate of one parameter, filtering the
    result of [mapArray] is mapping what is left when the input is filtered
    by the predicate of the image. *)
Theorem Guide_filter_mapArray {T U : Type} (xs : list T) (f : T -> U)
    (p : U -> bool) :
  Guide.filter (mapArray xs (unary f)) (unary p) =
  mapArray (Guide.filter xs (unary (fun x => p (f x)))) (unary f).
Proof.
  rewrite !filter_unary, !mapArray_unary.
  induction xs as [|x xs IH]; [reflexivity|].
  simpl. destruct (p (f x)); simpl; rewrite IH; reflexivity.
Qed.

(** ** MyAwaited on the records of the exercises *)

(** X25: MyAwaited leaves every instance of [GroceryItem], [GroceryStore],
    [ApiRequest] and [TSConfig] as it is, whatever the type arguments: a
    Promise in a field is not looked into. *)
Theorem MyAwaited_keeps_records (env : decls) (args : list ty) (R : ty)
    (d : nat) :
  instantiate env GroceryItem args = Ok R \/
  instantiate env GroceryStore args = Ok R \/
  instantiate env ApiRequest args = Ok R \/
  instantiate env (TSConfig env) args = Ok R ->
  MyAwaited env d R = Some R.
Proof.
  intros [H | [H | [H | H]]].
  - destruct args as [|a [|b [|c [|e rest]]]]; try discriminate H.
    injection H as <-. apply MyAwaited_base; reflexivity.
  - destruct args as [|a [|b [|c rest]]]; try discriminate H.
    injection H as <-. apply MyAwaited_base; reflexivity.
  - destruct args as [|a [|b [|c rest]]]; try discriminate H;
      injection H as <-; apply MyAwaited_base; reflexivity.
  - destruct args as [|P [|b rest]]; try discriminate H.
    + injection H as <-. apply MyAwaited_base; reflexivity.
    + apply instantiate_TSConfig_Ok in H as (_ & t & _ & ->).
      apply MyAwaited_base; reflexivity.
Qed.

Lemma MyAwaited_keeps_records_witness :
  MyAwaited ∅ 3 (TObj [("data", TPromise TString); ("method", TLitStr "GET")]) =
  Some (TObj [("data", TPromise TString); ("method", TLitStr "GET")]).
Proof.
  apply (MyAwaited_keeps_records ∅ [TPromise TString]).
  right. right. left. reflexivity.
Defined.
